(** * PAS emulator: a shallow embedding of the three Arduino sketches

    The repository holds three variants of one sketch that turns a hall
    throttle reading into an emulated pedal-assist (PAS) pulse train:

    - [Fixed]  the fixed-calibration sketch ([map] + [constrain]),
    - [LUT]    emulator_LUTthrottle.ino (interpolated lookup table),
    - [Buzz]   v3_emulator_buzz.ino (lookup table, [PASState] struct,
               debug buzzer and serial report).

    Target conventions used throughout (Arduino on AVR, avr-gcc):
    [int] is 16 bits, [long] and [unsigned long] are 32 bits, [float] and
    [double] are both IEEE-754 binary32 with round-to-nearest-even.
    [micros()] and [analogRead()] are inputs of every pass of [loop];
    [digitalWrite] and the serial report are recorded in an event log,
    newest event first. *)

From Stdlib Require Import ZArith QArith Qround Qpower Qabs Qreduction.
From Stdlib Require Import Lia Lqa List Bool Morphisms Setoid.
From Stdlib Require Floats.SpecFloat.
Import ListNotations.

Local Open Scope Z_scope.

(** ** Machine integers *)

Definition ULONG_MODULUS : Z := 2 ^ 32.

Definition INT_MIN : Z := -32768.
Definition INT_MAX : Z := 32767.
Definition LONG_MAX : Z := 2147483647.

Definition is_int (z : Z) : Prop := INT_MIN <= z <= INT_MAX.
Definition is_intb (z : Z) : bool := (INT_MIN <=? z) && (z <=? INT_MAX).

(** Conversion to [unsigned long], and its wrapping arithmetic. *)
Definition to_ulong (z : Z) : Z := z mod ULONG_MODULUS.

Definition ulong_sub (a b : Z) : Z := to_ulong (a - b).
Definition ulong_mul (a b : Z) : Z := to_ulong (a * b).

(** Conversion to (two's complement) [long]. *)
Definition to_long (z : Z) : Z :=
  (z + 2 ^ 31) mod ULONG_MODULUS - 2 ^ 31.

(** ** Binary floating point

    A finite floating-point number is represented by the rational it
    denotes.  [round prec x] is the nearest number with a [prec]-bit
    significand, ties going to the even significand.  The exponent range
    is not modelled: the values rounded by the sketches are zero or have a
    magnitude between 2^-16 and 2^34 ([interp_values_normal]), inside
    binary32's normal range, and [round] is compared with the Standard
    Library's IEEE-754 specification on concrete inputs at the end of the
    file. *)

Definition two : Q := 2 # 1.

(** [ilog2 x] is the integer part of the base-2 logarithm of [x > 0]. *)
Definition ilog2 (x : Q) : Z :=
  let k := Z.log2 (Qnum x) - Z.log2 (Zpos (Qden x)) in
  if Qle_bool (two ^ k) x then k else k - 1.

(** Round to the nearest integer, ties to even. *)
Definition rne (x : Q) : Z :=
  let f := Qfloor x in
  match (x - inject_Z f ?= 1 # 2)%Q with
  | Lt => f
  | Gt => f + 1
  | Eq => if Z.even f then f else f + 1
  end.

Definition round (prec : Z) (x : Q) : Q :=
  if Qeq_bool x 0 then 0%Q
  else
    let e := ilog2 (Qabs x) - (prec - 1) in
    Qred (inject_Z (rne (x * two ^ (- e))) * two ^ e).

Definition FLT_MANT_DIG : Z := 24.

Definition float : Type := Q.

Definition float_of_Z (z : Z) : float := round FLT_MANT_DIG (inject_Z z).
Definition fadd (a b : float) : float := round FLT_MANT_DIG (a + b).
Definition fsub (a b : float) : float := round FLT_MANT_DIG (a - b).
Definition fmul (a b : float) : float := round FLT_MANT_DIG (a * b).
Definition fquo (a b : float) : float := round FLT_MANT_DIG (a / b).

(** Division; [None] stands for a division by zero, whose result
    (an infinity or a NaN) has no defined conversion to an integer. *)
Definition fdiv (a b : float) : option float :=
  if Qeq_bool b 0 then None else Some (fquo a b).

(** Conversion of a floating-point value to an integer type discards the
    fractional part (truncation toward zero). *)
Definition long_of_float (x : float) : Z := Z.quot (Qnum x) (Zpos (Qden x)).

(** The same operations on the Standard Library's executable IEEE-754
    specification, used to cross-check [round] on concrete inputs. *)
Module SF.
Import SpecFloat.
Definition prec : Z := 24.
Definition emax : Z := 128.
Definition of_Z (z : Z) : spec_float := binary_normalize prec emax z 0 false.
Definition mul := SFmul prec emax.
Definition div := SFdiv prec emax.
Definition add := SFadd prec emax.
Definition sub := SFsub prec emax.
Definition to_Q (f : spec_float) : option Q :=
  match f with
  | S754_zero _ => Some 0%Q
  | S754_finite s m e =>
      Some (Qred (inject_Z (if s then Z.neg m else Z.pos m) * two ^ e))
  | _ => None
  end.

(** The value of [result] in [interpolate], on the segment from
    [(x0, y0)] to [(x1, y1)]. *)
Definition segment (v x0 y0 x1 y1 : Z) : option Q :=
  to_Q (add (of_Z y0)
          (div (mul (sub (of_Z v) (of_Z x0)) (sub (of_Z y1) (of_Z y0)))
             (sub (of_Z x1) (of_Z x0)))).
End SF.

(** ** The event log *)

Inductive event : Type :=
| DigitalWrite (pin : Z) (level : bool)
| SerialReport (throttle frequency audio : Z).

Definition HIGH : bool := true.
Definition LOW : bool := false.

(** Level of [pin] after the writes of [log] (newest first); a pin that was
    never written is low. *)
Fixpoint pin_level (pin : Z) (log : list event) : bool :=
  match log with
  | [] => LOW
  | DigitalWrite p l :: rest => if p =? pin then l else pin_level pin rest
  | SerialReport _ _ _ :: rest => pin_level pin rest
  end.

(** The levels written to [pin], newest first. *)
Fixpoint pin_writes (pin : Z) (log : list event) : list bool :=
  match log with
  | [] => []
  | DigitalWrite p l :: rest =>
      if p =? pin then l :: pin_writes pin rest else pin_writes pin rest
  | SerialReport _ _ _ :: rest => pin_writes pin rest
  end.

(** The serial reports of a log, newest first: throttle sample, PAS
    frequency and audio frequency. *)
Fixpoint serial_reports (log : list event) : list (Z * Z * Z) :=
  match log with
  | [] => []
  | DigitalWrite _ _ :: rest => serial_reports rest
  | SerialReport t f a :: rest => (t, f, a) :: serial_reports rest
  end.

(** The readings of a sequence of passes: the clock value and the throttle
    sample of each pass; [analogRead] returns an [int]. *)
Definition readings_ok (inputs : list (Z * Z)) : bool :=
  forallb (fun r => is_intb (snd r)) inputs.

(** ** [interpolate] (identical in emulator_LUTthrottle.ino and
       v3_emulator_buzz.ino) *)

(** [t[i]] for a table passed as a C array. *)
Definition at_ (t : list Z) (i : Z) : Z := nth (Z.to_nat i) t 0.

(** The body of the [if] inside the scan: the interpolation formula on the
    segment whose end points are [(x0i, y0i)] and [(x1i, y1i)]. *)
Definition interpolate_segment (inputValue x0i y0i x1i y1i : Z) : option Z :=
  let x0 := float_of_Z x0i in
  let y0 := float_of_Z y0i in
  let x1 := float_of_Z x1i in
  let y1 := float_of_Z y1i in
  match fdiv (fmul (fsub (float_of_Z inputValue) x0) (fsub y1 y0))
             (fsub x1 x0) with
  | Some q => Some (long_of_float (fadd y0 q))
  | None => None
  end.

(** The [for] loop, with [n] iterations left to run from index [i]. *)
Fixpoint interpolate_scan (n : nat) (i : Z) (inputValue : Z)
    (inputTable outputTable : list Z) : option Z :=
  match n with
  | O => Some (at_ outputTable 0)
  | S n' =>
      if (at_ inputTable i <=? inputValue)
         && (inputValue <=? at_ inputTable (i + 1))
      then interpolate_segment inputValue
             (at_ inputTable i) (at_ outputTable i)
             (at_ inputTable (i + 1)) (at_ outputTable (i + 1))
      else interpolate_scan n' (i + 1) inputValue inputTable outputTable
  end.

Definition interpolate (inputValue : Z) (inputTable outputTable : list Z)
    (tableLen : Z) : option Z :=
  if inputValue <=? at_ inputTable 0 then Some (at_ outputTable 0)
  else if at_ inputTable (tableLen - 1) <=? inputValue
  then Some (at_ outputTable (tableLen - 1))
  else interpolate_scan (Z.to_nat (tableLen - 1)) 0 inputValue
         inputTable outputTable.

(** Tables are checked with boolean predicates, so that they can be decided
    on a concrete table. *)
Fixpoint non_decreasing (t : list Z) : bool :=
  match t with
  | a :: (b :: _) as rest => (a <=? b) && non_decreasing rest
  | _ => true
  end.

Definition in_range (lo hi : Z) (t : list Z) : bool :=
  forallb (fun z => (lo <=? z) && (z <=? hi)) t.

(** "The throttle ADC values MUST be in increasing order." *)
Fixpoint increasing (t : list Z) : bool :=
  match t with
  | a :: (b :: _) as rest => (a <? b) && increasing rest
  | _ => true
  end.

(** ** Arduino core functions used by the fixed-calibration sketch *)
Module Arduino.
(** Modelled from the spec: [map] is called by the sketch but defined in the
    Arduino core, not in the repository.  "Linearly scale the sample from
    [THROTTLE_MIN, THROTTLE_MAX] to [MIN_FREQUENCY, MAX_FREQUENCY]", in the
    core's [long] arithmetic
    [(x - in_min) * (out_max - out_min) / (in_max - in_min) + out_min],
    whose division truncates. *)
Definition map (x in_min in_max out_min out_max : Z) : Z :=
  Z.quot ((x - in_min) * (out_max - out_min)) (in_max - in_min) + out_min.

(** Modelled from the spec: [constrain] is a macro of the Arduino core, not
    of the repository.  "Clamp the result to that output range":
    [amt < low ? low : (amt > high ? high : amt)]. *)
Definition constrain (amt low high : Z) : Z :=
  if amt <? low then low else if high <? amt then high else amt.
End Arduino.

(** Conversion of a floating-point value to [unsigned long]. *)
Definition ulong_of_float (x : float) : Z := to_ulong (long_of_float x).

(** ** The fixed-calibration sketch *)
Module Fixed.
Definition PAS_PIN : Z := 8.
Definition THROTTLE_MIN : Z := 220.
Definition THROTTLE_MAX : Z := 820.
Definition MIN_FREQUENCY : Z := 5.
Definition MAX_FREQUENCY : Z := 25.
Definition DUTY_CYCLE : Z := 25.

Record State : Type := mkState {
  throttleValue : Z;
  pasState : bool;
  previousMicros : Z;
  out : list event
}.

Definition setup : State := mkState 0 LOW 0 [DigitalWrite PAS_PIN LOW].

(** [frequency] as computed in the active branch of [loop]. *)
Definition frequency_of (throttle : Z) : Z :=
  let frequency :=
    Arduino.map throttle THROTTLE_MIN THROTTLE_MAX MIN_FREQUENCY MAX_FREQUENCY in
  Arduino.constrain frequency MIN_FREQUENCY MAX_FREQUENCY.

(** [totalPeriodMicros], [highTimeMicros] and [lowTimeMicros]. *)
Definition timings (frequency : Z) : Z * Z * Z :=
  let totalPeriodMicros := to_ulong (Z.quot 1000000 frequency) in
  let highTimeMicros :=
    ulong_of_float (fmul (float_of_Z totalPeriodMicros)
                         (fquo (float_of_Z DUTY_CYCLE) (inject_Z 100))) in
  let lowTimeMicros := ulong_sub totalPeriodMicros highTimeMicros in
  (totalPeriodMicros, highTimeMicros, lowTimeMicros).

Definition state_machine (currentMicros highTimeMicros lowTimeMicros : Z)
    (s : State) : State :=
  if eqb (pasState s) HIGH
     && (highTimeMicros <=? ulong_sub currentMicros (previousMicros s))
  then mkState (throttleValue s) LOW currentMicros
         (DigitalWrite PAS_PIN LOW :: out s)
  else if eqb (pasState s) LOW
          && (lowTimeMicros <=? ulong_sub currentMicros (previousMicros s))
  then mkState (throttleValue s) HIGH currentMicros
         (DigitalWrite PAS_PIN HIGH :: out s)
  else s.

(** One pass of [loop]; [currentMicros] is what [micros()] returned and
    [adc] what [analogRead(THROTTLE_PIN)] returned. *)
Definition loop (currentMicros adc : Z) (s0 : State) : State :=
  let s := mkState adc (pasState s0) (previousMicros s0) (out s0) in
  if THROTTLE_MIN <? throttleValue s then
    let '(_, highTimeMicros, lowTimeMicros) :=
      timings (frequency_of (throttleValue s)) in
    state_machine currentMicros highTimeMicros lowTimeMicros s
  else
    mkState (throttleValue s) LOW (previousMicros s)
      (DigitalWrite PAS_PIN LOW :: out s).

(** The passes of [loop] on the listed clock and throttle readings. *)
Definition run (inputs : list (Z * Z)) (s : State) : State :=
  fold_left (fun st r => loop (fst r) (snd r) st) inputs s.
End Fixed.

(** ** emulator_LUTthrottle.ino *)
Module LUT.
Definition PAS_PIN : Z := 8.
Definition DUTY_CYCLE : Z := 25.
Definition throttlePoints : list Z := [220; 350; 500; 700; 820].
Definition frequencyPoints : list Z := [0; 8; 14; 22; 25].
Definition tableSize : Z := Z.of_nat (length throttlePoints).

Record State : Type := mkState {
  throttleValue : Z;
  pasState : bool;
  previousMicros : Z;
  out : list event
}.

Definition setup : State := mkState 0 LOW 0 [DigitalWrite PAS_PIN LOW].

Definition timings (frequency : Z) : Z * Z * Z :=
  let totalPeriodMicros := to_ulong (Z.quot 1000000 frequency) in
  let highTimeMicros :=
    ulong_of_float (fmul (float_of_Z totalPeriodMicros)
                         (fquo (float_of_Z DUTY_CYCLE) (inject_Z 100))) in
  let lowTimeMicros := ulong_sub totalPeriodMicros highTimeMicros in
  (totalPeriodMicros, highTimeMicros, lowTimeMicros).

Definition state_machine (currentMicros highTimeMicros lowTimeMicros : Z)
    (s : State) : State :=
  if eqb (pasState s) HIGH
     && (highTimeMicros <=? ulong_sub currentMicros (previousMicros s))
  then mkState (throttleValue s) LOW currentMicros
         (DigitalWrite PAS_PIN LOW :: out s)
  else if eqb (pasState s) LOW
          && (lowTimeMicros <=? ulong_sub currentMicros (previousMicros s))
  then mkState (throttleValue s) HIGH currentMicros
         (DigitalWrite PAS_PIN HIGH :: out s)
  else s.

Definition force_low (s : State) : State :=
  mkState (throttleValue s) LOW (previousMicros s)
    (DigitalWrite PAS_PIN LOW :: out s).

(** One pass of [loop]; [None] when [interpolate] divides by zero. *)
Definition loop (currentMicros adc : Z) (s0 : State) : option State :=
  let s := mkState adc (pasState s0) (previousMicros s0) (out s0) in
  if at_ throttlePoints 0 <? throttleValue s then
    match interpolate (throttleValue s) throttlePoints frequencyPoints
            tableSize with
    | None => None
    | Some frequency =>
        if 0 <? frequency then
          let '(_, highTimeMicros, lowTimeMicros) := timings frequency in
          Some (state_machine currentMicros highTimeMicros lowTimeMicros s)
        else Some (force_low s)
    end
  else Some (force_low s).

(** The passes of [loop] on the listed clock and throttle readings. *)
Fixpoint run (inputs : list (Z * Z)) (s : State) : option State :=
  match inputs with
  | [] => Some s
  | (currentMicros, adc) :: rest =>
      match loop currentMicros adc s with
      | Some s' => run rest s'
      | None => None
      end
  end.
End LUT.


(** ** v3_emulator_buzz.ino *)
Module Buzz.
Definition PAS_PIN : Z := 8.
Definition BUZZ_PIN : Z := 9.
Definition DUTY_CYCLE : Z := 25.
Definition AUDIO_MULTIPLIER : Z := 50.
Definition DEBUG_MODE : bool := true.
Definition SERIAL_INTERVAL : Z := 250000.
Definition throttlePoints : list Z := [220; 350; 500; 700; 820].
Definition frequencyPoints : list Z := [0; 8; 14; 22; 25].
Definition tableSize : Z := Z.of_nat (length throttlePoints).

Record PASState : Type := mkPAS {
  outputHigh : bool;
  lastToggleMicros : Z;
  highDurationMicros : Z;
  lowDurationMicros : Z;
  currentFrequency : Z
}.

(** The fields [outputHigh] and [lastToggleMicros] of the buzzer's struct
    carry a prefix, since record fields share one name space. *)
Record BuzzState : Type := mkBuzz {
  buzzOutputHigh : bool;
  buzzLastToggleMicros : Z;
  periodMicros : Z
}.

(** The globals of the sketch, and the event log. *)
Record State : Type := mkState {
  pas : PASState;
  buzz : BuzzState;
  throttleValue : Z;
  lastSerialOutput : Z;
  out : list event
}.

Definition set_pas (p : PASState) (s : State) : State :=
  mkState p (buzz s) (throttleValue s) (lastSerialOutput s) (out s).

Definition set_buzz (b : BuzzState) (s : State) : State :=
  mkState (pas s) b (throttleValue s) (lastSerialOutput s) (out s).

Definition digitalWrite (pin : Z) (level : bool) (s : State) : State :=
  mkState (pas s) (buzz s) (throttleValue s) (lastSerialOutput s)
    (DigitalWrite pin level :: out s).

Definition updatePASTimings (frequency : Z) (s : State) : State :=
  let p := pas s in
  let p1 :=
    if 0 <? frequency then
      let totalPeriodMicros := 1000000 / to_ulong frequency in
      let high := ulong_mul totalPeriodMicros (to_ulong DUTY_CYCLE) / 100 in
      let low := ulong_sub totalPeriodMicros high in
      mkPAS (outputHigh p) (lastToggleMicros p) high low (currentFrequency p)
    else p in
  set_pas (mkPAS (outputHigh p1) (lastToggleMicros p1)
             (highDurationMicros p1) (lowDurationMicros p1) frequency) s.

Definition updateBuzzTimings (baseFrequency : Z) (s : State) : State :=
  let b := buzz s in
  if 0 <? baseFrequency then
    let audioFrequency := to_long (baseFrequency * AUDIO_MULTIPLIER) in
    set_buzz (mkBuzz (buzzOutputHigh b) (buzzLastToggleMicros b)
                (1000000 / to_ulong audioFrequency / 2)) s
  else set_buzz (mkBuzz (buzzOutputHigh b) (buzzLastToggleMicros b) 0) s.

Definition updatePASSignal (currentMicros : Z) (s : State) : State :=
  let p := pas s in
  if currentFrequency p <=? 0 then
    let s1 := digitalWrite PAS_PIN LOW s in
    set_pas (mkPAS false (lastToggleMicros p) (highDurationMicros p)
               (lowDurationMicros p) (currentFrequency p)) s1
  else if outputHigh p then
    if highDurationMicros p <=? ulong_sub currentMicros (lastToggleMicros p)
    then
      let s1 := digitalWrite PAS_PIN LOW s in
      set_pas (mkPAS false currentMicros (highDurationMicros p)
                 (lowDurationMicros p) (currentFrequency p)) s1
    else s
  else
    if lowDurationMicros p <=? ulong_sub currentMicros (lastToggleMicros p)
    then
      let s1 := digitalWrite PAS_PIN HIGH s in
      set_pas (mkPAS true currentMicros (highDurationMicros p)
                 (lowDurationMicros p) (currentFrequency p)) s1
    else s.

Definition updateBuzzSignal (currentMicros : Z) (s : State) : State :=
  let b := buzz s in
  if negb DEBUG_MODE || (periodMicros b =? 0) then
    let s1 := digitalWrite BUZZ_PIN LOW s in
    set_buzz (mkBuzz false (buzzLastToggleMicros b) (periodMicros b)) s1
  else if periodMicros b <=? ulong_sub currentMicros (buzzLastToggleMicros b)
  then
    let level := negb (buzzOutputHigh b) in
    let s1 := digitalWrite BUZZ_PIN level s in
    set_buzz (mkBuzz level currentMicros (periodMicros b)) s1
  else s.

Definition updateSerialOutput (currentMicros : Z) (s : State) : State :=
  if SERIAL_INTERVAL <=? ulong_sub currentMicros (lastSerialOutput s) then
    mkState (pas s) (buzz s) (throttleValue s) currentMicros
      (SerialReport (throttleValue s) (currentFrequency (pas s))
         (to_long (currentFrequency (pas s) * AUDIO_MULTIPLIER)) :: out s)
  else s.

(** [adc] is the value returned by [analogRead(THROTTLE_PIN)]; [None] when
    [interpolate] divides by zero. *)
Definition processThrottleInput (adc : Z) (s0 : State) : option State :=
  let s := mkState (pas s0) (buzz s0) adc (lastSerialOutput s0) (out s0) in
  if at_ throttlePoints 0 <? throttleValue s then
    match interpolate (throttleValue s) throttlePoints frequencyPoints
            tableSize with
    | None => None
    | Some frequency =>
        Some (updateBuzzTimings frequency (updatePASTimings frequency s))
    end
  else Some (updateBuzzTimings 0 (updatePASTimings 0 s)).

Definition setup : State :=
  mkState (mkPAS false 0 0 0 0) (mkBuzz false 0 0) 0 0
    [DigitalWrite BUZZ_PIN LOW; DigitalWrite PAS_PIN LOW].

(** One pass of [loop]; [currentMicros] is what [micros()] returned. *)
Definition loop (currentMicros adc : Z) (s : State) : option State :=
  match processThrottleInput adc s with
  | None => None
  | Some s1 =>
      let s2 := updatePASSignal currentMicros s1 in
      let s3 := updateBuzzSignal currentMicros s2 in
      Some (if DEBUG_MODE then updateSerialOutput currentMicros s3 else s3)
  end.

(** The runtime calls [loop] forever; [run] performs the passes whose clock
    and throttle readings are listed in [inputs]. *)
Fixpoint run (inputs : list (Z * Z)) (s : State) : option State :=
  match inputs with
  | [] => Some s
  | (currentMicros, adc) :: rest =>
      match loop currentMicros adc s with
      | Some s' => run rest s'
      | None => None
      end
  end.

(** The frequency that [processThrottleInput] hands to the timing
    functions for the sample [adc]. *)
Definition target_frequency (adc : Z) : option Z :=
  if at_ throttlePoints 0 <? adc
  then interpolate adc throttlePoints frequencyPoints tableSize
  else Some 0.

End Buzz.


(** * Properties *)

(** ** Wrapping arithmetic *)

Lemma ULONG_MODULUS_eq : ULONG_MODULUS = 4294967296.
Proof. reflexivity. Qed.

Lemma to_ulong_small : forall z, 0 <= z < ULONG_MODULUS -> to_ulong z = z.
Proof. intros z Hz. unfold to_ulong. apply Z.mod_small. exact Hz. Qed.

(** The difference of two clock readings is the time that really passed
    between them, whether or not the counter wrapped in between. *)
Lemma ulong_sub_elapsed : forall last d,
  0 <= last < ULONG_MODULUS -> 0 <= d < ULONG_MODULUS ->
  ulong_sub (to_ulong (last + d)) last = d.
Proof.
  intros last d Hl Hd. unfold ulong_sub, to_ulong.
  rewrite Zminus_mod_idemp_l.
  replace (last + d - last) with d by lia.
  apply Z.mod_small. exact Hd.
Qed.

(** ** Rounding *)

Section Rounding.
Local Open Scope Q_scope.

Lemma two_neq_0 : ~ two == 0.
Proof. discriminate. Qed.

Lemma pow2_pos : forall e : Z, 0 < two ^ e.
Proof. intros e. apply Qpower_0_lt. reflexivity. Qed.

Lemma pow2_add : forall a b : Z, two ^ (a + b) == two ^ a * two ^ b.
Proof. intros a b. apply Qpower_plus. exact two_neq_0. Qed.

Lemma pow2_succ : forall a : Z, two ^ (a + 1) == 2 * two ^ a.
Proof. intros a. rewrite pow2_add. change (two ^ 1) with two. unfold two. ring. Qed.

Lemma pow2_inv : forall e : Z, two ^ (- e) * two ^ e == 1.
Proof.
  intros e. rewrite <- pow2_add.
  replace (- e + e)%Z with 0%Z by lia. reflexivity.
Qed.

Lemma pow2_le : forall a b : Z, (a <= b)%Z -> two ^ a <= two ^ b.
Proof. intros a b H. apply Qpower_le_compat_l; [exact H | discriminate]. Qed.

Lemma pow2_lt_inv : forall a b : Z, two ^ a < two ^ b -> (a < b)%Z.
Proof. intros a b H. apply (Qpower_lt_compat_l_inv two); [exact H | reflexivity]. Qed.

Lemma pow2_Z : forall n : Z, (0 <= n)%Z -> inject_Z (2 ^ n) == two ^ n.
Proof. intros n H. exact (Zpower_Qpower 2 n H). Qed.

Lemma ilog2_spec : forall x : Q,
  0 < x -> two ^ ilog2 x <= x /\ x < two ^ (ilog2 x + 1).
Proof.
  intros x Hx.
  assert (Hp : (0 < Qnum x)%Z).
  { unfold Qlt in Hx. simpl in Hx. lia. }
  set (a := Z.log2 (Qnum x)). set (b := Z.log2 (Zpos (Qden x))).
  destruct (Z.log2_spec (Qnum x) Hp) as [Ha1 Ha2]. fold a in Ha1, Ha2.
  destruct (Z.log2_spec (Zpos (Qden x)) (Pos2Z.is_pos _)) as [Hb1 Hb2].
  fold b in Hb1, Hb2.
  assert (Ha0 : (0 <= a)%Z) by apply Z.log2_nonneg.
  assert (Hb0 : (0 <= b)%Z) by apply Z.log2_nonneg.
  assert (HxPQ : x * inject_Z (Zpos (Qden x)) == inject_Z (Qnum x)).
  { destruct x as [n d]. simpl. unfold Qeq, Qmult, inject_Z. simpl. lia. }
  set (P := inject_Z (Qnum x)) in *. set (D := inject_Z (Zpos (Qden x))) in *.
  assert (HA1 : two ^ a <= P).
  { rewrite <- pow2_Z by exact Ha0. unfold P. rewrite <- Zle_Qle. exact Ha1. }
  assert (HA2 : P < 2 * two ^ a).
  { rewrite <- pow2_succ, <- pow2_Z by lia. unfold P. rewrite <- Zlt_Qlt.
    exact Ha2. }
  assert (HB1 : two ^ b <= D).
  { rewrite <- pow2_Z by exact Hb0. unfold D. rewrite <- Zle_Qle. exact Hb1. }
  assert (HB2 : D < 2 * two ^ b).
  { rewrite <- pow2_succ, <- pow2_Z by lia. unfold D. rewrite <- Zlt_Qlt.
    exact Hb2. }
  assert (Hk : two ^ (a - b) * two ^ b == two ^ a).
  { rewrite <- pow2_add. replace (a - b + b)%Z with a by lia. reflexivity. }
  pose proof (pow2_pos a) as HAp. pose proof (pow2_pos b) as HBp.
  pose proof (pow2_pos (a - b)) as HKp.
  unfold ilog2. fold a b.
  destruct (Qle_bool (two ^ (a - b)) x) eqn:Hc.
  - apply Qle_bool_iff in Hc. split; [exact Hc |].
    rewrite pow2_succ.
    generalize dependent (two ^ (a - b)). generalize dependent (two ^ a).
    generalize dependent (two ^ b). intros B HB1 HB2 HBp A HA1 HA2 HAp K Hk HKp Hc.
    destruct (Qlt_le_dec x (2 * K)) as [Hlt | Hge]; [exact Hlt | exfalso].
    nra.
  - assert (Hlt : x < two ^ (a - b)).
    { apply Qnot_le_lt. intros H. apply Qle_bool_iff in H. congruence. }
    replace (a - b - 1 + 1)%Z with (a - b)%Z by lia.
    split; [| exact Hlt].
    assert (Hk1 : 2 * two ^ (a - b - 1) == two ^ (a - b)).
    { rewrite <- pow2_succ. replace (a - b - 1 + 1)%Z with (a - b)%Z by lia.
      reflexivity. }
    pose proof (pow2_pos (a - b - 1)) as HK1p.
    generalize dependent (two ^ (a - b - 1)).
    generalize dependent (two ^ (a - b)). generalize dependent (two ^ a).
    generalize dependent (two ^ b).
    intros B HB1 HB2 HBp A HA1 HA2 HAp K Hk HKp Hc Hlt K1 Hk1 HK1p.
    destruct (Qlt_le_dec x K1) as [Hlt1 | Hge]; [exfalso | exact Hge].
    nra.
Qed.

Lemma ilog2_unique : forall (x : Q) (k : Z),
  two ^ k <= x -> x < two ^ (k + 1) -> ilog2 x = k.
Proof.
  intros x k Hlo Hhi.
  assert (Hx : 0 < x) by (eapply Qlt_le_trans; [apply pow2_pos | exact Hlo]).
  destruct (ilog2_spec x Hx) as [Slo Shi].
  assert (H1 : (k < ilog2 x + 1)%Z).
  { apply pow2_lt_inv. eapply Qle_lt_trans; eassumption. }
  assert (H2 : (ilog2 x < k + 1)%Z).
  { apply pow2_lt_inv. eapply Qle_lt_trans; eassumption. }
  lia.
Qed.

Lemma ilog2_compat : forall x y : Q, 0 < x -> x == y -> ilog2 x = ilog2 y.
Proof.
  intros x y Hx Hxy. symmetry.
  destruct (ilog2_spec x Hx) as [Slo Shi].
  apply ilog2_unique; rewrite <- Hxy; assumption.
Qed.

Lemma ilog2_le : forall x y : Q, 0 < x -> x <= y -> (ilog2 x <= ilog2 y)%Z.
Proof.
  intros x y Hx Hxy.
  assert (Hy : 0 < y) by (eapply Qlt_le_trans; eassumption).
  destruct (ilog2_spec x Hx) as [Xlo _].
  destruct (ilog2_spec y Hy) as [_ Yhi].
  assert (H : (ilog2 x < ilog2 y + 1)%Z).
  { apply pow2_lt_inv. eapply Qle_lt_trans; [exact Xlo |].
    eapply Qle_lt_trans; eassumption. }
  lia.
Qed.

(** Rounding to the nearest integer. *)

Lemma rne_cases : forall x : Q,
  let f := Qfloor x in
  (rne x = f /\ x - inject_Z f <= 1 # 2)
  \/ (rne x = (f + 1)%Z /\ 1 # 2 <= x - inject_Z f).
Proof.
  intros x f. unfold rne. fold f.
  destruct (Qcompare_spec (x - inject_Z f) (1 # 2)) as [He | Hl | Hg].
  - destruct (Z.even f).
    + left. split; [reflexivity | rewrite He; apply Qle_refl].
    + right. split; [reflexivity | rewrite He; apply Qle_refl].
  - left. split; [reflexivity | apply Qlt_le_weak; exact Hl].
  - right. split; [reflexivity | apply Qlt_le_weak; exact Hg].
Qed.

Lemma floor_bounds : forall x : Q,
  inject_Z (Qfloor x) <= x /\ x < inject_Z (Qfloor x) + 1.
Proof.
  intros x. split; [apply Qfloor_le |].
  pose proof (Qlt_floor x) as H. rewrite inject_Z_plus in H. exact H.
Qed.

Lemma rne_Z : forall n : Z, rne (inject_Z n) = n.
Proof.
  intros n. unfold rne. rewrite Qfloor_Z.
  destruct (Qcompare_spec (inject_Z n - inject_Z n) (1 # 2)) as [H | H | H].
  - exfalso. lra.
  - reflexivity.
  - exfalso. lra.
Qed.

Lemma rne_compat : forall x y : Q, x == y -> rne x = rne y.
Proof.
  intros x y H. unfold rne.
  rewrite (Qfloor_comp x y H).
  assert (Hc : (x - inject_Z (Qfloor y) ?= 1 # 2)
               = (y - inject_Z (Qfloor y) ?= 1 # 2)).
  { apply Qcompare_comp; [rewrite H |]; reflexivity. }
  rewrite Hc. reflexivity.
Qed.

Lemma rne_near : forall x : Q,
  x - (1 # 2) <= inject_Z (rne x) /\ inject_Z (rne x) <= x + (1 # 2).
Proof.
  intros x. destruct (floor_bounds x) as [Hlo Hhi].
  destruct (rne_cases x) as [[-> Hr] | [-> Hr]].
  - split; lra.
  - rewrite inject_Z_plus. change (inject_Z 1) with 1. split; lra.
Qed.

Lemma rne_le : forall x y : Q, x <= y -> (rne x <= rne y)%Z.
Proof.
  intros x y Hxy.
  pose proof (Qfloor_resp_le x y Hxy) as Hf.
  destruct (Z.eq_dec (Qfloor x) (Qfloor y)) as [Heq | Hne].
  - unfold rne. rewrite Heq.
    destruct (Qcompare_spec (x - inject_Z (Qfloor y)) (1 # 2)) as [Hx | Hx | Hx];
    destruct (Qcompare_spec (y - inject_Z (Qfloor y)) (1 # 2)) as [Hy | Hy | Hy];
    try lia; try (exfalso; lra); destruct (Z.even (Qfloor y)); lia.
  - destruct (rne_cases x) as [[Hx _] | [Hx _]];
    destruct (rne_cases y) as [[Hy _] | [Hy _]]; lia.
Qed.

(** Rounding to [prec] significant bits. *)

Variable prec : Z.
Hypothesis prec_pos : (1 <= prec)%Z.

Lemma Qabs_nonzero : forall x : Q, ~ x == 0 -> 0 < Qabs x.
Proof.
  intros x Hx. apply Qabs_case; intros H.
  - destruct (Qle_lt_or_eq _ _ H) as [Hlt | Heq]; [exact Hlt |].
    exfalso. apply Hx. symmetry. exact Heq.
  - destruct (Qle_lt_or_eq _ _ H) as [Hlt | Heq]; [lra |].
    exfalso. apply Hx. exact Heq.
Qed.

Lemma round_zero : forall x : Q, x == 0 -> round prec x == 0.
Proof.
  intros x Hx. unfold round.
  apply Qeq_bool_iff in Hx. rewrite Hx. reflexivity.
Qed.

Lemma round_nonzero : forall x : Q,
  ~ x == 0 ->
  round prec x ==
  inject_Z (rne (x * two ^ (- (ilog2 (Qabs x) - (prec - 1)))))
  * two ^ (ilog2 (Qabs x) - (prec - 1)).
Proof.
  intros x Hx. unfold round.
  destruct (Qeq_bool x 0) eqn:Hz.
  - exfalso. apply Hx. apply Qeq_bool_iff. exact Hz.
  - apply Qred_correct.
Qed.

Lemma round_pos : forall x : Q,
  0 < x ->
  round prec x ==
  inject_Z (rne (x * two ^ (- (ilog2 x - (prec - 1)))))
  * two ^ (ilog2 x - (prec - 1)).
Proof.
  intros x Hx.
  assert (Hne : ~ x == 0) by (intros H; rewrite H in Hx; discriminate).
  rewrite (round_nonzero x Hne).
  assert (Ha : Qabs x == x) by (apply Qabs_pos; apply Qlt_le_weak; exact Hx).
  rewrite (ilog2_compat (Qabs x) x); [reflexivity | | exact Ha].
  rewrite Ha. exact Hx.
Qed.

Lemma round_compat : forall x y : Q, x == y -> round prec x == round prec y.
Proof.
  intros x y Hxy.
  destruct (Qeq_dec x 0) as [Hz | Hnz].
  - rewrite (round_zero x Hz). rewrite Hxy in Hz.
    rewrite (round_zero y Hz). reflexivity.
  - assert (Hny : ~ y == 0) by (rewrite <- Hxy; exact Hnz).
    rewrite (round_nonzero x Hnz), (round_nonzero y Hny).
    assert (He : ilog2 (Qabs x) = ilog2 (Qabs y)).
    { apply ilog2_compat; [apply Qabs_nonzero; exact Hnz |].
      rewrite Hxy. reflexivity. }
    rewrite He.
    rewrite (rne_compat (x * two ^ (- (ilog2 (Qabs y) - (prec - 1))))
                        (y * two ^ (- (ilog2 (Qabs y) - (prec - 1))))).
    + reflexivity.
    + rewrite Hxy. reflexivity.
Qed.

Lemma round_exact : forall m k : Z,
  (Z.abs m < 2 ^ prec)%Z ->
  round prec (inject_Z m * two ^ k) == inject_Z m * two ^ k.
Proof.
  intros m k Hm.
  destruct (Z.eq_dec m 0) as [-> | Hm0].
  - rewrite round_zero; [ring | ring].
  - set (x := inject_Z m * two ^ k).
    pose proof (pow2_pos k) as Hk.
    assert (Hne : ~ x == 0).
    { unfold x. intros H. apply Qmult_integral in H. destruct H as [H | H].
      - apply Hm0. apply inject_Z_injective. exact H.
      - rewrite H in Hk. discriminate. }
    assert (Habs : Qabs x == inject_Z (Z.abs m) * two ^ k).
    { unfold x. rewrite Qabs_Qmult.
      rewrite (Qabs_pos (two ^ k)) by (apply Qlt_le_weak; exact Hk).
      reflexivity. }
    rewrite (round_nonzero x Hne).
    set (L := ilog2 (Qabs x)).
    destruct (ilog2_spec (Qabs x) (Qabs_nonzero x Hne)) as [Hlo _].
    fold L in Hlo.
    assert (HL : (L < prec + k)%Z).
    { apply pow2_lt_inv. eapply Qle_lt_trans; [exact Hlo |].
      rewrite Habs, pow2_add.
      apply Qmult_lt_compat_r; [exact Hk |].
      rewrite <- pow2_Z by lia. rewrite <- Zlt_Qlt. exact Hm. }
    set (e := (L - (prec - 1))%Z).
    assert (Hs : x * two ^ (- e) == inject_Z (m * 2 ^ (k - e))).
    { unfold x. rewrite inject_Z_mult, pow2_Z by (unfold e; lia).
      replace (k - e)%Z with (k + - e)%Z by lia.
      rewrite pow2_add. ring. }
    rewrite (rne_compat _ _ Hs), rne_Z.
    rewrite inject_Z_mult, pow2_Z by (unfold e; lia).
    unfold x. rewrite <- Qmult_assoc, <- pow2_add.
    replace (k - e + e)%Z with k by lia. reflexivity.
Qed.

Lemma round_binade : forall x : Q,
  0 < x ->
  two ^ ilog2 x <= round prec x /\ round prec x <= two ^ (ilog2 x + 1).
Proof.
  intros x Hx.
  rewrite (round_pos x Hx).
  destruct (ilog2_spec x Hx) as [Hlo Hhi].
  set (L := ilog2 x) in *. set (e := (L - (prec - 1))%Z).
  pose proof (pow2_pos e) as He. pose proof (pow2_pos (- e)) as Hne.
  assert (H1 : inject_Z (2 ^ (prec - 1)) <= x * two ^ (- e)).
  { rewrite pow2_Z by lia.
    replace (prec - 1)%Z with (L + - e)%Z by (unfold e; lia).
    rewrite pow2_add. apply Qmult_le_compat_r; [exact Hlo |].
    apply Qlt_le_weak; exact Hne. }
  assert (H2 : x * two ^ (- e) <= inject_Z (2 ^ prec)).
  { rewrite pow2_Z by lia.
    replace prec with (L + 1 + - e)%Z at 1 by (unfold e; lia).
    rewrite pow2_add. apply Qmult_le_compat_r.
    - apply Qlt_le_weak; exact Hhi.
    - apply Qlt_le_weak; exact Hne. }
  apply rne_le in H1, H2. rewrite rne_Z in H1, H2.
  split.
  - replace L with (prec - 1 + e)%Z at 1 by (unfold e; lia).
    rewrite pow2_add, <- (pow2_Z (prec - 1)) by lia.
    apply Qmult_le_compat_r; [| apply Qlt_le_weak; exact He].
    rewrite <- Zle_Qle. exact H1.
  - replace (L + 1)%Z with (prec + e)%Z by (unfold e; lia).
    rewrite pow2_add, <- (pow2_Z prec) by lia.
    apply Qmult_le_compat_r; [| apply Qlt_le_weak; exact He].
    rewrite <- Zle_Qle. exact H2.
Qed.

Lemma round_nonneg : forall x : Q, 0 <= x -> 0 <= round prec x.
Proof.
  intros x Hx. destruct (Qle_lt_or_eq _ _ Hx) as [Hlt | Heq].
  - destruct (round_binade x Hlt) as [Hlo _].
    eapply Qle_trans; [| exact Hlo]. apply Qlt_le_weak, pow2_pos.
  - rewrite round_zero; [apply Qle_refl | symmetry; exact Heq].
Qed.

Lemma round_le : forall x y : Q,
  0 <= x -> x <= y -> round prec x <= round prec y.
Proof.
  intros x y Hx Hxy.
  destruct (Qle_lt_or_eq _ _ Hx) as [Hlt | Heq].
  - assert (Hy : 0 < y) by (eapply Qlt_le_trans; eassumption).
    pose proof (ilog2_le x y Hlt Hxy) as HL.
    destruct (Z.eq_dec (ilog2 x) (ilog2 y)) as [Hsame | Hdiff].
    + rewrite (round_pos x Hlt), (round_pos y Hy), Hsame.
      set (e := (ilog2 y - (prec - 1))%Z).
      apply Qmult_le_compat_r; [| apply Qlt_le_weak, pow2_pos].
      rewrite <- Zle_Qle. apply rne_le.
      apply Qmult_le_compat_r; [exact Hxy | apply Qlt_le_weak, pow2_pos].
    + destruct (round_binade x Hlt) as [_ Hhi].
      destruct (round_binade y Hy) as [Hlo _].
      eapply Qle_trans; [exact Hhi |].
      eapply Qle_trans; [| exact Hlo].
      apply pow2_le. lia.
  - rewrite (round_zero x) by (symmetry; exact Heq).
    apply round_nonneg. eapply Qle_trans; eassumption.
Qed.

Lemma round_upper : forall x : Q,
  0 <= x -> round prec x <= x + x * two ^ (- prec).
Proof.
  intros x Hx. destruct (Qle_lt_or_eq _ _ Hx) as [Hlt | Heq].
  - rewrite (round_pos x Hlt).
    destruct (ilog2_spec x Hlt) as [Hlo _].
    set (L := ilog2 x) in *. set (e := (L - (prec - 1))%Z).
    destruct (rne_near (x * two ^ (- e))) as [_ Hn].
    pose proof (pow2_pos e) as He. pose proof (pow2_pos (- prec)) as Hp.
    pose proof (pow2_inv e) as Hinv.
    assert (Hhalf : two ^ e == 2 * (two ^ L * two ^ (- prec))).
    { rewrite <- pow2_add, <- pow2_succ.
      replace (L + - prec + 1)%Z with e by (unfold e; lia). reflexivity. }
    generalize dependent (rne (x * two ^ (- e))). intros r Hn.
    generalize dependent (two ^ (- e)). generalize dependent (two ^ e).
    generalize dependent (two ^ L). generalize dependent (two ^ (- prec)).
    intros P HP TL Hlo E HE Hhalf NE Hinv Hn.
    assert (Hr : inject_Z r * E <= (x * NE + (1 # 2)) * E).
    { apply Qmult_le_compat_r; [exact Hn | apply Qlt_le_weak; exact HE]. }
    assert (Hx2 : (x * NE + (1 # 2)) * E == x + TL * P).
    { rewrite Qmult_plus_distr_l, <- Qmult_assoc, Hinv, Hhalf. ring. }
    rewrite Hx2 in Hr. eapply Qle_trans; [exact Hr |].
    assert (TL * P <= x * P).
    { apply Qmult_le_compat_r; [exact Hlo | apply Qlt_le_weak; exact HP]. }
    lra.
  - rewrite round_zero by (symmetry; exact Heq). rewrite <- Heq.
    ring_simplify. apply Qle_refl.
Qed.
End Rounding.

(** ** Floating-point operations *)

#[local] Instance round_Proper : Proper (eq ==> Qeq ==> Qeq) round.
Proof. intros p q -> x y Hxy. apply round_compat. exact Hxy. Qed.

Section Floats.
Local Open Scope Q_scope.

Lemma FLT_prec_pos : (1 <= FLT_MANT_DIG)%Z.
Proof. unfold FLT_MANT_DIG. lia. Qed.

Lemma round_Z : forall z : Z,
  (Z.abs z < 2 ^ FLT_MANT_DIG)%Z ->
  round FLT_MANT_DIG (inject_Z z) == inject_Z z.
Proof.
  intros z Hz.
  assert (H : inject_Z z == inject_Z z * two ^ 0) by (simpl; ring).
  rewrite (round_compat _ _ _ H).
  rewrite (round_exact FLT_MANT_DIG FLT_prec_pos z 0 Hz). symmetry. exact H.
Qed.

Lemma float_of_Z_exact : forall z : Z,
  (Z.abs z < 2 ^ FLT_MANT_DIG)%Z -> float_of_Z z == inject_Z z.
Proof. intros z Hz. unfold float_of_Z. apply round_Z. exact Hz. Qed.

Lemma fsub_exact : forall (a b : float) (m n : Z),
  a == inject_Z m -> b == inject_Z n ->
  (Z.abs (m - n) < 2 ^ FLT_MANT_DIG)%Z ->
  fsub a b == inject_Z (m - n).
Proof.
  intros a b m n Ha Hb Hmn. unfold fsub. rewrite Ha, Hb.
  assert (H : inject_Z m - inject_Z n == inject_Z (m - n)).
  { unfold Zminus. rewrite inject_Z_plus, inject_Z_opp. ring. }
  rewrite H. apply round_Z. exact Hmn.
Qed.

Lemma long_of_float_floor : forall x : Q, 0 <= x -> long_of_float x = Qfloor x.
Proof.
  intros [n d] Hx. unfold long_of_float, Qfloor. simpl.
  apply Z.quot_div_nonneg; [| reflexivity].
  unfold Qle in Hx. simpl in Hx. lia.
Qed.

Lemma floor_between : forall (x : Q) (lo hi : Z),
  inject_Z lo <= x -> x < inject_Z hi + 1 -> (lo <= Qfloor x <= hi)%Z.
Proof.
  intros x lo hi Hlo Hhi. destruct (floor_bounds x) as [F1 F2]. split.
  - apply Qfloor_resp_le in Hlo. rewrite Qfloor_Z in Hlo. exact Hlo.
  - assert (H : inject_Z (Qfloor x) < inject_Z (hi + 1)).
    { rewrite inject_Z_plus. change (inject_Z 1) with 1. lra. }
    rewrite <- Zlt_Qlt in H. lia.
Qed.
End Floats.

(** ** The interpolation formula on one segment *)

Section Segment.
Local Open Scope Q_scope.

Lemma flt_le : forall x y : Q,
  0 <= x -> x <= y -> round FLT_MANT_DIG x <= round FLT_MANT_DIG y.
Proof. exact (round_le FLT_MANT_DIG FLT_prec_pos). Qed.

Lemma flt_nonneg : forall x : Q, 0 <= x -> 0 <= round FLT_MANT_DIG x.
Proof. exact (round_nonneg FLT_MANT_DIG FLT_prec_pos). Qed.

Lemma flt_upper : forall x : Q,
  0 <= x -> round FLT_MANT_DIG x <= x + x * (1 # 16777216).
Proof. exact (round_upper FLT_MANT_DIG). Qed.

Lemma flt_dyadic : forall m k : Z,
  (Z.abs m < 16777216)%Z -> round FLT_MANT_DIG (inject_Z m * two ^ k) == inject_Z m * two ^ k.
Proof. exact (round_exact FLT_MANT_DIG FLT_prec_pos). Qed.

Lemma interp_value_bounds : forall dx1 dx2 dy w y0 : Z,
  (0 <= dx1 <= dx2)%Z -> (dx2 <= w)%Z -> (0 <= dy)%Z -> (0 <= y0)%Z ->
  (y0 + dy <= INT_MAX)%Z ->
  let F := fun dx : Z =>
    round FLT_MANT_DIG (inject_Z y0 + round FLT_MANT_DIG (round FLT_MANT_DIG (inject_Z dx * inject_Z dy) / inject_Z w)) in
  inject_Z y0 <= F dx1 /\ F dx1 <= F dx2
  /\ F dx2 <= inject_Z (y0 + dy) + (1 # 512).
Proof.
  intros dx1 dx2 dy w y0 Hdx Hw Hdy Hy0 Hy1 F.
  assert (Hwpos : (dx1 = dx2 /\ dx2 = 0 /\ w = 0)%Z \/ (0 < w)%Z) by lia.
  unfold INT_MAX in Hy1.
  assert (Qdy : 0 <= inject_Z dy) by (rewrite Zle_Qle in Hdy; exact Hdy).
  assert (Qy0 : 0 <= inject_Z y0) by (rewrite Zle_Qle in Hy0; exact Hy0).
  assert (Qw : 0 <= inject_Z w).
  { assert (H : (0 <= w)%Z) by lia. rewrite Zle_Qle in H. exact H. }
  assert (Hprod : forall dx : Z, (0 <= dx)%Z -> 0 <= inject_Z dx * inject_Z dy).
  { intros dx H. apply Qmult_le_0_compat; [| exact Qdy].
    rewrite Zle_Qle in H. exact H. }
  assert (Hquo : forall p : Q, 0 <= p -> 0 <= p / inject_Z w).
  { intros p Hp. unfold Qdiv. apply Qmult_le_0_compat; [exact Hp |].
    apply Qinv_le_0_compat. exact Qw. }
  assert (Hq : forall dx : Z, (0 <= dx)%Z ->
            0 <= round FLT_MANT_DIG (round FLT_MANT_DIG (inject_Z dx * inject_Z dy) / inject_Z w)).
  { intros dx H. apply flt_nonneg, Hquo, flt_nonneg, Hprod. exact H. }
  assert (Hmono : forall a b : Z, (0 <= a <= b)%Z -> F a <= F b).
  { intros a b [Ha Hab]. unfold F.
    apply flt_le.
    - pose proof (Hq a Ha). lra.
    - apply Qplus_le_r. apply flt_le; [apply Hquo, flt_nonneg, Hprod, Ha |].
      unfold Qdiv. apply Qmult_le_compat_r; [| apply Qinv_le_0_compat, Qw].
      apply flt_le; [apply Hprod, Ha |].
      apply Qmult_le_compat_r; [| exact Qdy].
      rewrite <- Zle_Qle. exact Hab. }
  split; [| split].
  - unfold F. rewrite <- (round_Z y0) at 1 by (unfold FLT_MANT_DIG; simpl; lia).
    apply flt_le; [exact Qy0 |].
    pose proof (Hq dx1 (proj1 Hdx)). lra.
  - apply Hmono. exact Hdx.
  - destruct (Z.eq_dec w 0) as [Hw0 | Hw0].
    + (* a segment of zero width: [dx2 = 0] and the product is zero *)
      assert (Hd0 : dx2 = 0%Z) by lia. subst dx2 w. unfold F.
      assert (Hz : round FLT_MANT_DIG (round FLT_MANT_DIG (inject_Z 0 * inject_Z dy) / inject_Z 0) == 0).
      { unfold Qdiv. change (/ inject_Z 0) with 0.
        rewrite Qmult_0_r. apply round_zero. reflexivity. }
      rewrite Hz, Qplus_0_r, round_Z by (unfold FLT_MANT_DIG; simpl; lia).
      rewrite inject_Z_plus. lra.
    + assert (Hwp : 0 < inject_Z w).
      { assert (H : (0 < w)%Z) by lia. rewrite Zlt_Qlt in H. exact H. }
      assert (Hwdy : 0 <= inject_Z w * inject_Z dy)
        by (apply Qmult_le_0_compat; assumption).
      (* the product *)
      assert (HP : round FLT_MANT_DIG (inject_Z dx2 * inject_Z dy)
                   <= inject_Z w * inject_Z dy
                      + inject_Z w * inject_Z dy * (1 # 16777216)).
      { eapply Qle_trans; [| apply flt_upper; exact Hwdy].
        apply flt_le; [apply Hprod; lia |].
        apply Qmult_le_compat_r; [| exact Qdy].
        rewrite <- Zle_Qle. exact Hw. }
      (* the quotient *)
      set (U := inject_Z (dy * 512 + 1) * two ^ (-9)).
      assert (HU : U == inject_Z dy + (1 # 512)).
      { unfold U. rewrite inject_Z_plus, inject_Z_mult.
        change (two ^ (-9)) with (1 # 512). change (inject_Z 512) with (512 # 1).
        change (inject_Z 1) with 1. field. }
      assert (Hdy15 : inject_Z dy <= 32767).
      { assert (H : (dy <= 32767)%Z) by lia. rewrite Zle_Qle in H. exact H. }
      assert (HQ : round FLT_MANT_DIG (round FLT_MANT_DIG (inject_Z dx2 * inject_Z dy) / inject_Z w) <= U).
      { apply Qle_trans with (round FLT_MANT_DIG U);
          [| unfold U; rewrite flt_dyadic by lia; apply Qle_refl].
        apply flt_le; [apply Hquo, flt_nonneg, Hprod; lia |].
        apply Qle_shift_div_r; [exact Hwp |]. rewrite HU.
        eapply Qle_trans; [exact HP |].
        generalize dependent (inject_Z w). generalize dependent (inject_Z dy).
        intros. nra. }
      (* the sum *)
      set (V := inject_Z ((y0 + dy) * 512 + 1) * two ^ (-9)).
      assert (HV : V == inject_Z (y0 + dy) + (1 # 512)).
      { unfold V. rewrite inject_Z_plus, inject_Z_mult.
        change (two ^ (-9)) with (1 # 512). change (inject_Z 512) with (512 # 1).
        change (inject_Z 1) with 1. field. }
      unfold F. rewrite <- HV.
      apply Qle_trans with (round FLT_MANT_DIG V);
        [| unfold V; rewrite flt_dyadic by lia; apply Qle_refl].
      apply flt_le.
      * pose proof (Hq dx2 ltac:(lia)). lra.
      * rewrite HV, inject_Z_plus. lra.
Qed.
End Segment.

Section Normal.
Local Open Scope Q_scope.

(** Every value that the interpolation formula rounds is zero or has a
    magnitude between 2^-16 and 2^33, inside the normal range of binary32,
    where rounding does not depend on the exponent bounds. *)
Lemma interp_values_normal : forall dx dy w y0 : Z,
  (0 <= dx <= w)%Z -> (0 < w <= 65535)%Z -> (0 <= dy <= 65535)%Z ->
  (0 <= y0 <= INT_MAX)%Z ->
  let P := round FLT_MANT_DIG (inject_Z dx * inject_Z dy) in
  let D := round FLT_MANT_DIG (P / inject_Z w) in
  let R := round FLT_MANT_DIG (inject_Z y0 + D) in
  (P == 0 \/ (1 <= P /\ P <= two ^ 33))
  /\ (D == 0 \/ (two ^ (-16) <= D /\ D <= two ^ 33))
  /\ (R == 0 \/ (two ^ (-16) <= R /\ R <= two ^ 34)).
Proof.
  intros dx dy w y0 Hdx Hw Hdy Hy0 P D R. unfold INT_MAX in Hy0.
  assert (E1 : round FLT_MANT_DIG 1 == 1)
    by (apply (flt_dyadic 1 0); reflexivity).
  assert (E33 : round FLT_MANT_DIG (two ^ 33) == two ^ 33).
  { assert (H : two ^ 33 == inject_Z 1 * two ^ 33) by ring.
    rewrite H at 1. rewrite flt_dyadic by reflexivity. ring. }
  assert (E34 : round FLT_MANT_DIG (two ^ 34) == two ^ 34).
  { assert (H : two ^ 34 == inject_Z 1 * two ^ 34) by ring.
    rewrite H at 1. rewrite flt_dyadic by reflexivity. ring. }
  assert (E16 : round FLT_MANT_DIG (two ^ (-16)) == two ^ (-16)).
  { assert (H : two ^ (-16) == inject_Z 1 * two ^ (-16)) by ring.
    rewrite H at 1. rewrite flt_dyadic by reflexivity. ring. }
  assert (Qw : 0 < inject_Z w).
  { assert (H : (0 < w)%Z) by lia. rewrite Zlt_Qlt in H. exact H. }
  assert (Qw' : inject_Z w <= 65535).
  { assert (H : (w <= 65535)%Z) by lia. rewrite Zle_Qle in H. exact H. }
  assert (Qy0 : 0 <= inject_Z y0 /\ inject_Z y0 <= 32767).
  { split; [assert (H : (0 <= y0)%Z) by lia | assert (H : (y0 <= 32767)%Z) by lia];
      rewrite Zle_Qle in H; exact H. }
  assert (Hprod : inject_Z dx * inject_Z dy == inject_Z (dx * dy))
    by (rewrite inject_Z_mult; reflexivity).
  (* the product *)
  assert (HP : P == 0 \/ (1 <= P /\ P <= two ^ 33)).
  { destruct (Z.eq_dec (dx * dy) 0) as [Hz | Hnz].
    - left. unfold P. apply round_zero. rewrite Hprod, Hz. reflexivity.
    - right. unfold P. rewrite Hprod.
      assert (Hdx1 : (1 <= dx)%Z).
      { destruct (Z.eq_dec dx 0) as [-> | ]; [| lia]. exfalso. apply Hnz. lia. }
      assert (Hdy1 : (1 <= dy)%Z).
      { destruct (Z.eq_dec dy 0) as [-> | ]; [| lia]. exfalso. apply Hnz. lia. }
      assert (Hlo : (1 <= dx * dy)%Z).
      { change 1%Z with (1 * 1)%Z. apply Z.mul_le_mono_nonneg. all: lia. }
      assert (Hhi : (dx * dy <= 2 ^ 33)%Z).
      { apply Z.le_trans with (65535 * 65535)%Z; [| vm_compute; discriminate].
        apply Z.mul_le_mono_nonneg; lia. }
      rewrite Zle_Qle in Hlo, Hhi. split.
      + rewrite <- E1. apply flt_le; [discriminate | exact Hlo].
      + rewrite <- E33.
        apply flt_le; [eapply Qle_trans; [| exact Hlo]; discriminate |].
        rewrite <- pow2_Z by lia. exact Hhi. }
  assert (two33 : two ^ 33 == 8589934592) by reflexivity.
  assert (two16 : two ^ (-16) == 1 # 65536) by reflexivity.
  (* the quotient *)
  assert (HD : D == 0 \/ (two ^ (-16) <= D /\ D <= two ^ 33)).
  { destruct HP as [Hz | [Hlo Hhi]].
    - left. unfold D. apply round_zero. rewrite Hz. unfold Qdiv. ring.
    - right. unfold D.
      assert (Hq1 : two ^ (-16) <= P / inject_Z w).
      { apply Qle_shift_div_l; [exact Qw |]. rewrite two16. lra. }
      assert (Hq2 : P / inject_Z w <= two ^ 33).
      { apply Qle_shift_div_r; [exact Qw |].
        assert (1 <= inject_Z w).
        { assert (H : (1 <= w)%Z) by lia. rewrite Zle_Qle in H. exact H. }
        rewrite two33 in *. nra. }
      split.
      + rewrite <- E16. apply flt_le; [rewrite two16; discriminate | exact Hq1].
      + rewrite <- E33. apply flt_le; [| exact Hq2].
        eapply Qle_trans; [| exact Hq1]. rewrite two16. discriminate. }
  split; [exact HP |]. split; [exact HD |].
  (* the sum *)
  assert (two34 : two ^ 34 == 17179869184) by reflexivity.
  assert (HD0 : 0 <= D).
  { destruct HD as [Hz | [Hlo _]]; [rewrite Hz; apply Qle_refl |].
    eapply Qle_trans; [| exact Hlo]. rewrite two16. discriminate. }
  destruct (Qeq_dec (inject_Z y0 + D) 0) as [Hz | Hnz].
  - left. unfold R. apply round_zero. exact Hz.
  - right. unfold R.
    assert (Hs1 : two ^ (-16) <= inject_Z y0 + D).
    { destruct HD as [Hd | [Hlo _]].
      - rewrite Hd in *. rewrite Qplus_0_r in *.
        assert (Hy : (1 <= y0)%Z).
        { destruct (Z.eq_dec y0 0) as [-> | ]; [| lia].
          exfalso. apply Hnz. reflexivity. }
        rewrite Zle_Qle in Hy. change (inject_Z 1) with 1 in Hy.
        rewrite two16. lra.
      - lra. }
    assert (Hs2 : inject_Z y0 + D <= two ^ 34).
    { destruct HD as [Hd | [_ Hhi]].
      - rewrite Hd, two34. lra.
      - rewrite two33 in Hhi. rewrite two34. lra. }
    split.
    + rewrite <- E16. apply flt_le; [rewrite two16; discriminate | exact Hs1].
    + rewrite <- E34. apply flt_le; [| exact Hs2]. lra.
Qed.
End Normal.

(** ** The scan of [interpolate] *)

Section Interpolate.
Local Open Scope Z_scope.

Lemma int_abs_small : forall a b : Z,
  is_int a -> is_int b -> Z.abs (a - b) < 2 ^ FLT_MANT_DIG.
Proof.
  unfold is_int, INT_MIN, INT_MAX, FLT_MANT_DIG. intros a b Ha Hb.
  change (2 ^ 24) with 16777216. lia.
Qed.

Lemma int_float_exact : forall a : Z, is_int a -> (float_of_Z a == inject_Z a)%Q.
Proof.
  intros a Ha. apply float_of_Z_exact.
  unfold is_int, INT_MIN, INT_MAX, FLT_MANT_DIG in *.
  change (2 ^ 24) with 16777216. lia.
Qed.

(** On a segment with distinct end points the division is defined, and the
    value of [result] is the formula with each operation rounded. *)
Lemma interpolate_segment_value : forall v x0 y0 x1 y1 : Z,
  is_int v -> is_int x0 -> is_int y0 -> is_int x1 -> is_int y1 ->
  x0 <> x1 ->
  exists R : Q,
    interpolate_segment v x0 y0 x1 y1 = Some (long_of_float R)
    /\ (R == round FLT_MANT_DIG
              (inject_Z y0
               + round FLT_MANT_DIG
                   (round FLT_MANT_DIG
                      (inject_Z (v - x0) * inject_Z (y1 - y0))
                    / inject_Z (x1 - x0))))%Q.
Proof.
  intros v x0 y0 x1 y1 Hv Hx0 Hy0 Hx1 Hy1 Hne.
  assert (HA : (fsub (float_of_Z v) (float_of_Z x0) == inject_Z (v - x0))%Q)
    by (apply fsub_exact; auto using int_float_exact, int_abs_small).
  assert (HB : (fsub (float_of_Z y1) (float_of_Z y0) == inject_Z (y1 - y0))%Q)
    by (apply fsub_exact; auto using int_float_exact, int_abs_small).
  assert (HC : (fsub (float_of_Z x1) (float_of_Z x0) == inject_Z (x1 - x0))%Q)
    by (apply fsub_exact; auto using int_float_exact, int_abs_small).
  unfold interpolate_segment, fdiv.
  destruct (Qeq_bool (fsub (float_of_Z x1) (float_of_Z x0)) 0) eqn:Hz.
  - exfalso. apply Qeq_bool_iff in Hz. rewrite HC in Hz.
    apply (inject_Z_injective (x1 - x0) 0) in Hz. lia.
  - eexists. split; [reflexivity |].
    unfold fadd, fquo, fmul.
    rewrite HA, HB, HC, (int_float_exact y0 Hy0). reflexivity.
Qed.

(** Two samples on one segment of a table with non-negative outputs. *)
Lemma interpolate_segment_sound : forall v1 v2 x0 y0 x1 y1 : Z,
  is_int x0 -> is_int x1 ->
  0 <= y0 -> y0 <= y1 -> y1 <= INT_MAX ->
  x0 <= v1 -> v1 <= v2 -> v2 <= x1 -> x0 < x1 ->
  exists r1 r2 : Z,
    interpolate_segment v1 x0 y0 x1 y1 = Some r1
    /\ interpolate_segment v2 x0 y0 x1 y1 = Some r2
    /\ y0 <= r1 /\ r1 <= r2 /\ r2 <= y1.
Proof.
  intros v1 v2 x0 y0 x1 y1 Hx0 Hx1 Hy0 Hy01 Hy1 H0 H12 H2 Hlt.
  assert (Iv1 : is_int v1) by (unfold is_int in *; lia).
  assert (Iv2 : is_int v2) by (unfold is_int in *; lia).
  assert (Iy0 : is_int y0) by (unfold is_int, INT_MIN, INT_MAX in *; lia).
  assert (Iy1 : is_int y1) by (unfold is_int, INT_MIN, INT_MAX in *; lia).
  assert (Hne : x0 <> x1) by lia.
  destruct (interpolate_segment_value v1 x0 y0 x1 y1 Iv1 Hx0 Iy0 Hx1 Iy1 Hne)
    as [R1 [E1 V1]].
  destruct (interpolate_segment_value v2 x0 y0 x1 y1 Iv2 Hx0 Iy0 Hx1 Iy1 Hne)
    as [R2 [E2 V2]].
  destruct (interp_value_bounds (v1 - x0) (v2 - x0) (y1 - y0) (x1 - x0) y0)
    as [Blo [Bmid Bhi]]; try lia.
  cbv beta in Blo, Bmid, Bhi.
  rewrite <- V1 in Blo, Bmid. rewrite <- V2 in Bmid, Bhi.
  replace (y0 + (y1 - y0)) with y1 in Bhi by lia.
  assert (Q0 : (0 <= inject_Z y0)%Q) by (rewrite Zle_Qle in Hy0; exact Hy0).
  assert (P1 : (0 <= R1)%Q) by lra.
  assert (P2 : (0 <= R2)%Q) by lra.
  exists (long_of_float R1), (long_of_float R2).
  rewrite (long_of_float_floor R1 P1), (long_of_float_floor R2 P2) in *.
  split; [exact E1 |]. split; [exact E2 |].
  assert (B1 : y0 <= Qfloor R1 <= y1) by (apply floor_between; lra).
  assert (B2 : y0 <= Qfloor R2 <= y1) by (apply floor_between; lra).
  pose proof (Qfloor_resp_le R1 R2 Bmid).
  lia.
Qed.

(** The scan, started at an index whose input lies below the sample, stops
    at the first segment whose upper end reaches the sample; that segment has
    distinct end points. *)
Lemma interpolate_scan_cases : forall (n : nat) (i v : Z) (inT outT : list Z),
  at_ inT i < v ->
  (exists j : Z,
     i <= j < i + Z.of_nat n
     /\ at_ inT j < v /\ v <= at_ inT (j + 1)
     /\ interpolate_scan n i v inT outT
        = interpolate_segment v (at_ inT j) (at_ outT j)
            (at_ inT (j + 1)) (at_ outT (j + 1)))
  \/ (at_ inT (i + Z.of_nat n) < v
      /\ interpolate_scan n i v inT outT = Some (at_ outT 0)).
Proof.
  induction n as [| n IH]; intros i v inT outT Hi.
  - right. split; [| reflexivity].
    replace (i + Z.of_nat 0) with i by lia. exact Hi.
  - cbn [interpolate_scan].
    destruct (at_ inT i <=? v) eqn:Hlo; [| apply Z.leb_gt in Hlo; lia].
    destruct (v <=? at_ inT (i + 1)) eqn:Hhi; cbn [andb].
    + apply Z.leb_le in Hhi. left. exists i. repeat split; auto; lia.
    + apply Z.leb_gt in Hhi.
      destruct (IH (i + 1) v inT outT Hhi) as [[j [Hj [H1 [H2 H3]]]] | [H1 H2]].
      * left. exists j. repeat split; auto; lia.
      * right. split; [| exact H2].
        replace (i + Z.of_nat (S n)) with (i + 1 + Z.of_nat n) by lia.
        exact H1.
Qed.

Lemma interpolate_cases : forall (v : Z) (inT outT : list Z) (N : Z),
  1 <= N ->
  (v <= at_ inT 0 /\ interpolate v inT outT N = Some (at_ outT 0))
  \/ (at_ inT 0 < v /\ at_ inT (N - 1) <= v
      /\ interpolate v inT outT N = Some (at_ outT (N - 1)))
  \/ (exists j : Z,
        0 <= j < N - 1 /\ at_ inT j < v /\ v <= at_ inT (j + 1)
        /\ v < at_ inT (N - 1)
        /\ interpolate v inT outT N
           = interpolate_segment v (at_ inT j) (at_ outT j)
               (at_ inT (j + 1)) (at_ outT (j + 1))).
Proof.
  intros v inT outT N HN. unfold interpolate.
  destruct (v <=? at_ inT 0) eqn:H0.
  - left. apply Z.leb_le in H0. auto.
  - apply Z.leb_gt in H0. right.
    destruct (at_ inT (N - 1) <=? v) eqn:H1.
    + left. apply Z.leb_le in H1. auto.
    + apply Z.leb_gt in H1. right.
      destruct (interpolate_scan_cases (Z.to_nat (N - 1)) 0 v inT outT H0)
        as [[j [Hj [Ha [Hb Hc]]]] | [Ha Hb]].
      * exists j. rewrite Z2Nat.id in Hj by lia. repeat split; auto; lia.
      * rewrite Z2Nat.id in Ha by lia. simpl in Ha. lia.
Qed.
End Interpolate.

(** ** Tables *)

Section Tables.
Local Open Scope Z_scope.

Lemma non_decreasing_nth : forall t : list Z,
  non_decreasing t = true ->
  forall i j : nat, (i <= j < length t)%nat -> nth i t 0 <= nth j t 0.
Proof.
  induction t as [| a t IH]; intros Hs i j Hij.
  - simpl in Hij. lia.
  - destruct t as [| b t'].
    + simpl in Hij. assert (i = 0%nat /\ j = 0%nat) as [-> ->] by lia.
      apply Z.le_refl.
    + cbn [non_decreasing] in Hs. apply andb_prop in Hs. destruct Hs as [Hab Hs].
      apply Z.leb_le in Hab.
      destruct i as [| i]; destruct j as [| j];
        [apply Z.le_refl | | exfalso; lia |].
      * change (nth 0 (a :: b :: t') 0) with a.
        change (nth (S j) (a :: b :: t') 0) with (nth j (b :: t') 0).
        assert (H : nth 0 (b :: t') 0 <= nth j (b :: t') 0).
        { apply IH; [exact Hs |]. simpl in *. lia. }
        change (nth 0 (b :: t') 0) with b in H. lia.
      * change (nth (S i) (a :: b :: t') 0) with (nth i (b :: t') 0).
        change (nth (S j) (a :: b :: t') 0) with (nth j (b :: t') 0).
        apply IH; [exact Hs |]. simpl in *. lia.
Qed.

Lemma non_decreasing_at : forall (t : list Z) (i j : Z),
  non_decreasing t = true ->
  0 <= i -> i <= j -> j < Z.of_nat (length t) -> at_ t i <= at_ t j.
Proof.
  intros t i j Hs Hi Hij Hj. unfold at_.
  apply non_decreasing_nth; [exact Hs | lia].
Qed.

Lemma in_range_at : forall (lo hi : Z) (t : list Z) (i : Z),
  in_range lo hi t = true ->
  0 <= i < Z.of_nat (length t) -> lo <= at_ t i <= hi.
Proof.
  intros lo hi t i Hr Hi. unfold in_range in Hr.
  rewrite forallb_forall in Hr.
  assert (Hin : In (at_ t i) t) by (unfold at_; apply nth_In; lia).
  apply Hr in Hin. apply andb_prop in Hin. destruct Hin as [H1 H2].
  apply Z.leb_le in H1. apply Z.leb_le in H2. lia.
Qed.

(** On every table of 16-bit entries, sorted or not, the scan never reaches
    a division by zero. *)
Lemma interpolate_defined : forall (v : Z) (inT outT : list Z) (N : Z),
  N = Z.of_nat (length inT) -> N = Z.of_nat (length outT) -> 1 <= N ->
  in_range INT_MIN INT_MAX inT = true ->
  in_range INT_MIN INT_MAX outT = true ->
  is_int v ->
  exists r : Z, interpolate v inT outT N = Some r.
Proof.
  intros v inT outT N Hin Hout HN Rin Rout Hv.
  destruct (interpolate_cases v inT outT N HN)
    as [[_ E] | [[_ [_ E]] | [j [Hj [Hlo [Hhi [_ E]]]]]]].
  - eauto.
  - eauto.
  - rewrite E.
    destruct (interpolate_segment_value v (at_ inT j) (at_ outT j)
                (at_ inT (j + 1)) (at_ outT (j + 1))) as [R [ER _]];
      try (apply in_range_at; [assumption | lia]); try assumption; try lia.
    eauto.
Qed.

(** Sorted tables of 16-bit inputs and non-negative 16-bit outputs: the
    result lies between the first and the last output, and it does not
    decrease when the sample grows. *)
Lemma interpolate_bounded : forall (v : Z) (inT outT : list Z) (N : Z),
  N = Z.of_nat (length inT) -> N = Z.of_nat (length outT) -> 1 <= N ->
  non_decreasing inT = true -> non_decreasing outT = true ->
  in_range INT_MIN INT_MAX inT = true -> in_range 0 INT_MAX outT = true ->
  exists r : Z,
    interpolate v inT outT N = Some r
    /\ at_ outT 0 <= r <= at_ outT (N - 1)
    /\ (forall j : Z, 0 <= j < N - 1 ->
        at_ inT j < v -> v <= at_ inT (j + 1) -> v < at_ inT (N - 1) ->
        at_ outT j <= r <= at_ outT (j + 1)).
Proof.
  intros v inT outT N Hin Hout HN Sin Sout Rin Rout.
  assert (Hends : at_ outT 0 <= at_ outT (N - 1))
    by (apply non_decreasing_at; [exact Sout | lia ..]).
  destruct (interpolate_cases v inT outT N HN)
    as [[H0 E] | [[H0 [H1 E]] | [j [Hj [Hlo [Hhi [Hlast E]]]]]]].
  - exists (at_ outT 0). split; [exact E |]. split; [lia |].
    intros j Hj Hlo _ _.
    assert (at_ inT 0 <= at_ inT j)
      by (apply non_decreasing_at; [exact Sin | lia ..]).
    lia.
  - exists (at_ outT (N - 1)). split; [exact E |]. split; [lia |].
    intros j Hj _ _ Hlast. lia.
  - pose proof (in_range_at _ _ inT j Rin ltac:(lia)) as Ix0.
    pose proof (in_range_at _ _ inT (j + 1) Rin ltac:(lia)) as Ix1.
    pose proof (in_range_at _ _ outT j Rout ltac:(lia)) as Iy0.
    pose proof (in_range_at _ _ outT (j + 1) Rout ltac:(lia)) as Iy1.
    assert (Hy : at_ outT j <= at_ outT (j + 1))
      by (apply non_decreasing_at; [exact Sout | lia ..]).
    destruct (interpolate_segment_sound v v (at_ inT j) (at_ outT j)
                (at_ inT (j + 1)) (at_ outT (j + 1)))
      as [r [r' [E1 [E2 [B1 [B2 B3]]]]]]; try assumption; try lia.
    + rewrite E1 in E2. injection E2 as <-.
      exists r. split; [rewrite E; exact E1 |].
      assert (at_ outT 0 <= at_ outT j)
        by (apply non_decreasing_at; [exact Sout | lia ..]).
      assert (at_ outT (j + 1) <= at_ outT (N - 1))
        by (apply non_decreasing_at; [exact Sout | lia ..]).
      split; [lia |].
      intros k Hk Klo Khi _.
      (* the sample determines its segment up to equal outputs *)
      destruct (Z.lt_trichotomy k j) as [Hkj | [Hkj | Hkj]].
      * assert (at_ inT (k + 1) <= at_ inT j)
          by (apply non_decreasing_at; [exact Sin | lia ..]).
        lia.
      * subst k. lia.
      * assert (at_ inT (j + 1) <= at_ inT k)
          by (apply non_decreasing_at; [exact Sin | lia ..]).
        lia.
Qed.
End Tables.

Section Monotone.
Local Open Scope Z_scope.

Lemma interpolate_monotone : forall (v1 v2 : Z) (inT outT : list Z) (N : Z),
  N = Z.of_nat (length inT) -> N = Z.of_nat (length outT) -> 1 <= N ->
  non_decreasing inT = true -> non_decreasing outT = true ->
  in_range INT_MIN INT_MAX inT = true -> in_range 0 INT_MAX outT = true ->
  v1 <= v2 ->
  exists r1 r2 : Z,
    interpolate v1 inT outT N = Some r1
    /\ interpolate v2 inT outT N = Some r2
    /\ r1 <= r2.
Proof.
  intros v1 v2 inT outT N Hin Hout HN Sin Sout Rin Rout H12.
  destruct (interpolate_bounded v1 inT outT N Hin Hout HN Sin Sout Rin Rout)
    as [r1 [E1 [B1 S1]]].
  destruct (interpolate_bounded v2 inT outT N Hin Hout HN Sin Sout Rin Rout)
    as [r2 [E2 [B2 S2]]].
  exists r1, r2. split; [exact E1 |]. split; [exact E2 |].
  destruct (interpolate_cases v1 inT outT N HN)
    as [[A0 A] | [[A0 [A1 A]] | [j1 [Aj [Alo [Ahi [Alast A]]]]]]].
  - rewrite E1 in A. injection A as ->. lia.
  - rewrite E1 in A. injection A as ->.
    destruct (interpolate_cases v2 inT outT N HN)
      as [[C0 C] | [[C0 [C1 C]] | [j2 [Cj [Clo [Chi [Clast C]]]]]]].
    + lia.
    + rewrite E2 in C. injection C as ->. lia.
    + lia.
  - specialize (S1 j1 Aj Alo Ahi Alast).
    destruct (interpolate_cases v2 inT outT N HN)
      as [[C0 C] | [[C0 [C1 C]] | [j2 [Cj [Clo [Chi [Clast C]]]]]]].
    + assert (at_ inT 0 <= at_ inT j1)
        by (apply non_decreasing_at; [exact Sin | lia ..]).
      lia.
    + rewrite E2 in C. injection C as ->.
      assert (at_ outT (j1 + 1) <= at_ outT (N - 1))
        by (apply non_decreasing_at; [exact Sout | lia ..]).
      lia.
    + specialize (S2 j2 Cj Clo Chi Clast).
      destruct (Z.lt_trichotomy j1 j2) as [Hj | [Hj | Hj]].
      * assert (at_ outT (j1 + 1) <= at_ outT j2)
          by (apply non_decreasing_at; [exact Sout | lia ..]).
        lia.
      * subst j2.
        pose proof (in_range_at _ _ inT j1 Rin ltac:(lia)) as Ix0.
        pose proof (in_range_at _ _ inT (j1 + 1) Rin ltac:(lia)) as Ix1.
        pose proof (in_range_at _ _ outT j1 Rout ltac:(lia)) as Iy0.
        pose proof (in_range_at _ _ outT (j1 + 1) Rout ltac:(lia)) as Iy1.
        assert (Hy : at_ outT j1 <= at_ outT (j1 + 1))
          by (apply non_decreasing_at; [exact Sout | lia ..]).
        destruct (interpolate_segment_sound v1 v2 (at_ inT j1) (at_ outT j1)
                    (at_ inT (j1 + 1)) (at_ outT (j1 + 1)))
          as [q1 [q2 [F1 [F2 [G1 [G2 G3]]]]]]; try assumption; try lia.
        rewrite A, F1 in E1. rewrite C, F2 in E2.
        injection E1 as <-. injection E2 as <-. exact G2.
      * assert (at_ inT (j2 + 1) <= at_ inT j1)
          by (apply non_decreasing_at; [exact Sin | lia ..]).
        lia.
Qed.
End Monotone.

(** ** The signal toggler of v3_emulator_buzz.ino *)

Import Buzz.

(** The interleaved [if] / [else if] of the fixed-calibration [loop]. *)
Lemma Fixed_state_machine_step : forall (now high low : Z) (u : Fixed.State),
  let elapsed := ulong_sub now (Fixed.previousMicros u) in
  (Fixed.pasState u = HIGH -> high <= elapsed ->
   Fixed.state_machine now high low u
   = Fixed.mkState (Fixed.throttleValue u) LOW now
       (DigitalWrite Fixed.PAS_PIN LOW :: Fixed.out u))
  /\ (Fixed.pasState u = LOW -> low <= elapsed ->
      Fixed.state_machine now high low u
      = Fixed.mkState (Fixed.throttleValue u) HIGH now
          (DigitalWrite Fixed.PAS_PIN HIGH :: Fixed.out u))
  /\ ((Fixed.pasState u = HIGH /\ elapsed < high)
      \/ (Fixed.pasState u = LOW /\ elapsed < low) ->
      Fixed.state_machine now high low u = u).
Proof.
  intros now high low u elapsed. subst elapsed.
  unfold Fixed.state_machine. repeat split.
  - intros Hs Hd. apply Z.leb_le in Hd. rewrite Hs, Hd. reflexivity.
  - intros Hs Hd. apply Z.leb_le in Hd. rewrite Hs, Hd. reflexivity.
  - intros [[Hs Hd] | [Hs Hd]]; apply Z.leb_gt in Hd; rewrite Hs, Hd;
      reflexivity.
Qed.

(** C1. On an active channel one evaluation of [updatePASSignal] either
    ends a high phase that lasted [highDurationMicros] (flag and pin go low,
    the timer restarts at the current time), or ends a low phase that lasted
    [lowDurationMicros] (flag and pin go high, the timer restarts), or changes
    nothing at all, however often it is evaluated at that instant.  The
    state machine inside the fixed-calibration [loop] takes the same three
    cases. *)
Theorem C1_toggler_step : forall (now : Z) (s : State) (u : Fixed.State)
    (high low : Z),
  0 < currentFrequency (pas s) ->
  let p := pas s in
  let elapsed := ulong_sub now (lastToggleMicros p) in
  let elapsed_u := ulong_sub now (Fixed.previousMicros u) in
  (outputHigh p = true -> highDurationMicros p <= elapsed ->
   updatePASSignal now s =
     mkState (mkPAS false now (highDurationMicros p) (lowDurationMicros p)
                (currentFrequency p))
       (buzz s) (throttleValue s) (lastSerialOutput s)
       (DigitalWrite PAS_PIN LOW :: out s))
  /\ (outputHigh p = false -> lowDurationMicros p <= elapsed ->
      updatePASSignal now s =
        mkState (mkPAS true now (highDurationMicros p) (lowDurationMicros p)
                   (currentFrequency p))
          (buzz s) (throttleValue s) (lastSerialOutput s)
          (DigitalWrite PAS_PIN HIGH :: out s))
  /\ ((outputHigh p = true /\ elapsed < highDurationMicros p)
      \/ (outputHigh p = false /\ elapsed < lowDurationMicros p) ->
      forall n : nat, Nat.iter n (updatePASSignal now) s = s)
  /\ (Fixed.pasState u = HIGH -> high <= elapsed_u ->
      Fixed.state_machine now high low u
      = Fixed.mkState (Fixed.throttleValue u) LOW now
          (DigitalWrite Fixed.PAS_PIN LOW :: Fixed.out u))
  /\ (Fixed.pasState u = LOW -> low <= elapsed_u ->
      Fixed.state_machine now high low u
      = Fixed.mkState (Fixed.throttleValue u) HIGH now
          (DigitalWrite Fixed.PAS_PIN HIGH :: Fixed.out u))
  /\ ((Fixed.pasState u = HIGH /\ elapsed_u < high)
      \/ (Fixed.pasState u = LOW /\ elapsed_u < low) ->
      forall n : nat, Nat.iter n (Fixed.state_machine now high low) u = u).
Proof.
  intros now s u high low Hf p elapsed elapsed_u. subst p elapsed elapsed_u.
  assert (Hact : (currentFrequency (pas s) <=? 0) = false)
    by (apply Z.leb_gt; exact Hf).
  destruct (Fixed_state_machine_step now high low u) as [F1 [F2 F3]].
  split; [| split; [| split; [| split; [| split]]]].
  - intros Hh Hd. apply Z.leb_le in Hd.
    unfold updatePASSignal. rewrite Hact, Hh, Hd. reflexivity.
  - intros Hl Hd. apply Z.leb_le in Hd.
    unfold updatePASSignal. rewrite Hact, Hl, Hd. reflexivity.
  - intros Hno n.
    assert (Hfix : updatePASSignal now s = s).
    { unfold updatePASSignal. rewrite Hact.
      destruct Hno as [[Hh Hd] | [Hl Hd]]; apply Z.leb_gt in Hd.
      - rewrite Hh, Hd. reflexivity.
      - rewrite Hl, Hd. reflexivity. }
    induction n as [| n IH]; simpl.
    + reflexivity.
    + rewrite IH. exact Hfix.
  - exact F1.
  - exact F2.
  - intros Hno n. specialize (F3 Hno).
    induction n as [| n IH]; simpl.
    + reflexivity.
    + rewrite IH. exact F3.
Qed.

Lemma C1_toggler_step_witness :
  let s := mkState (mkPAS true 1000 10000 30000 25) (mkBuzz false 0 400)
             900 0 [DigitalWrite PAS_PIN HIGH] in
  0 < currentFrequency (pas s)
  /\ updatePASSignal 11000 s =
       mkState (mkPAS false 11000 10000 30000 25) (mkBuzz false 0 400)
         900 0 [DigitalWrite PAS_PIN LOW; DigitalWrite PAS_PIN HIGH]
  /\ forall n : nat, Nat.iter n (updatePASSignal 10999) s = s.
Proof.
  intros s.
  assert (Hf : 0 < currentFrequency (pas s)) by (vm_compute; reflexivity).
  split; [exact Hf |].
  destruct (C1_toggler_step 11000 s Fixed.setup 10000 30000 Hf) as [Hhigh _].
  destruct (C1_toggler_step 10999 s Fixed.setup 10000 30000 Hf)
    as [_ [_ [Hidle _]]].
  split.
  - apply Hhigh; vm_compute; [reflexivity | discriminate].
  - apply Hidle. left. split; vm_compute; reflexivity.
Defined.

(** C3. Both togglers, [updatePASSignal] of the v3 sketch and the state
    machine of the fixed-calibration [loop], measure time as the wrapping
    difference of the two clock readings: if [d] microseconds really passed
    since the last toggle, the measured time is [d] even when the clock
    wrapped past zero in between, and the channel toggles (flag, timer and
    pin) exactly when [d] reaches the hold duration of its present level. *)
Theorem C3_wraparound_safe : forall (s : State) (u : Fixed.State)
    (high low adc d : Z),
  0 < currentFrequency (pas s) ->
  0 <= lastToggleMicros (pas s) < ULONG_MODULUS ->
  0 <= Fixed.previousMicros u < ULONG_MODULUS ->
  Fixed.THROTTLE_MIN < adc ->
  0 <= d < ULONG_MODULUS ->
  (let p := pas s in
   let now := to_ulong (lastToggleMicros p + d) in
   let required :=
     if outputHigh p then highDurationMicros p else lowDurationMicros p in
   let s' := updatePASSignal now s in
   ulong_sub now (lastToggleMicros p) = d
   /\ (required <= d ->
       outputHigh (pas s') = negb (outputHigh p)
       /\ lastToggleMicros (pas s') = now
       /\ pin_level PAS_PIN (out s') = negb (outputHigh p))
   /\ (d < required -> s' = s))
  /\ (let now := to_ulong (Fixed.previousMicros u + d) in
      let required := if Fixed.pasState u then high else low in
      let u' := Fixed.state_machine now high low u in
      ulong_sub now (Fixed.previousMicros u) = d
      /\ (required <= d ->
          Fixed.pasState u' = negb (Fixed.pasState u)
          /\ Fixed.previousMicros u' = now
          /\ Fixed.out u'
             = DigitalWrite Fixed.PAS_PIN (negb (Fixed.pasState u))
               :: Fixed.out u
          /\ pin_level Fixed.PAS_PIN (Fixed.out u')
             = negb (Fixed.pasState u))
      /\ (d < required -> u' = u))
  /\ (let now := to_ulong (Fixed.previousMicros u + d) in
      let t := Fixed.timings (Fixed.frequency_of adc) in
      let required := if Fixed.pasState u then snd (fst t) else snd t in
      let u' := Fixed.loop now adc u in
      (required <= d ->
       Fixed.pasState u' = negb (Fixed.pasState u)
       /\ Fixed.previousMicros u' = now
       /\ Fixed.out u'
          = DigitalWrite Fixed.PAS_PIN (negb (Fixed.pasState u))
            :: Fixed.out u
       /\ pin_level Fixed.PAS_PIN (Fixed.out u') = negb (Fixed.pasState u))
      /\ (d < required ->
          Fixed.pasState u' = Fixed.pasState u
          /\ Fixed.previousMicros u' = Fixed.previousMicros u
          /\ Fixed.out u' = Fixed.out u)).
Proof.
  intros s u high low adc d Hf Hlast Hprev Hadc Hd.
  assert (Fsm : forall (h l : Z) (v : Fixed.State),
            Fixed.previousMicros v = Fixed.previousMicros u ->
            let now := to_ulong (Fixed.previousMicros u + d) in
            let required := if Fixed.pasState v then h else l in
            let v' := Fixed.state_machine now h l v in
            (required <= d ->
             Fixed.pasState v' = negb (Fixed.pasState v)
             /\ Fixed.previousMicros v' = now
             /\ Fixed.out v'
                = DigitalWrite Fixed.PAS_PIN (negb (Fixed.pasState v))
                  :: Fixed.out v
             /\ pin_level Fixed.PAS_PIN (Fixed.out v')
                = negb (Fixed.pasState v))
            /\ (d < required -> v' = v)).
  { intros h l v Hv now required v'. subst v' required.
    assert (Hel : ulong_sub now (Fixed.previousMicros v) = d)
      by (rewrite Hv; apply ulong_sub_elapsed; assumption).
    destruct (Fixed_state_machine_step now h l v) as [F1 [F2 F3]].
    rewrite Hel in F1, F2, F3.
    destruct (Fixed.pasState v) eqn:Hs; split; intros Hreq.
    - rewrite (F1 eq_refl Hreq). repeat split.
    - apply F3. left. split; [reflexivity | exact Hreq].
    - rewrite (F2 eq_refl Hreq). repeat split.
    - apply F3. right. split; [reflexivity | exact Hreq]. }
  split; [| split].
  - intros p now required s'. subst s' required p.
    assert (Hel : ulong_sub now (lastToggleMicros (pas s)) = d)
      by (apply ulong_sub_elapsed; assumption).
    assert (Hact : (currentFrequency (pas s) <=? 0) = false)
      by (apply Z.leb_gt; exact Hf).
    split; [exact Hel |].
    unfold updatePASSignal. rewrite Hact, Hel.
    destruct (outputHigh (pas s)); split; intros Hreq.
    + apply Z.leb_le in Hreq. rewrite Hreq. simpl. auto.
    + apply Z.leb_gt in Hreq. rewrite Hreq. reflexivity.
    + apply Z.leb_le in Hreq. rewrite Hreq. simpl. auto.
    + apply Z.leb_gt in Hreq. rewrite Hreq. reflexivity.
  - intros now required u'.
    split; [apply ulong_sub_elapsed; assumption |].
    exact (Fsm high low u eq_refl).
  - intros now t required u'. subst u' required.
    unfold Fixed.loop. cbn [Fixed.throttleValue].
    assert (Hact : (Fixed.THROTTLE_MIN <? adc) = true)
      by (apply Z.ltb_lt; exact Hadc).
    rewrite Hact. fold t. destruct t as [[total h] l]. cbn [fst snd].
    destruct (Fsm h l (Fixed.mkState adc (Fixed.pasState u)
                         (Fixed.previousMicros u) (Fixed.out u)) eq_refl)
      as [G1 G2].
    cbn [Fixed.pasState Fixed.out Fixed.previousMicros] in G1, G2.
    fold now in G1, G2. split; intros Hreq.
    + exact (G1 Hreq).
    + rewrite (G2 Hreq). repeat split.
Qed.

(** The last toggle happened 100 microseconds before the clock wrapped; 150
    microseconds later the clock reads 50 and the 120 microsecond high
    phase is found to be over, in the v3 sketch and in the fixed-calibration
    sketch alike. *)
Lemma C3_wraparound_safe_witness :
  let s := mkState (mkPAS true 4294967196 120 360 25) (mkBuzz false 0 400)
             900 0 [DigitalWrite PAS_PIN HIGH] in
  let u := Fixed.mkState 900 HIGH 4294967196
             [DigitalWrite Fixed.PAS_PIN HIGH] in
  (0 < currentFrequency (pas s)
   /\ 0 <= lastToggleMicros (pas s) < ULONG_MODULUS
   /\ 0 <= Fixed.previousMicros u < ULONG_MODULUS
   /\ Fixed.THROTTLE_MIN < 900
   /\ 0 <= 150 < ULONG_MODULUS)
  /\ to_ulong (4294967196 + 150) = 50
  /\ ulong_sub 50 4294967196 = 150
  /\ outputHigh (pas (updatePASSignal 50 s)) = false
  /\ lastToggleMicros (pas (updatePASSignal 50 s)) = 50
  /\ pin_level PAS_PIN (out (updatePASSignal 50 s)) = LOW
  /\ Fixed.pasState (Fixed.state_machine 50 120 360 u) = LOW
  /\ Fixed.previousMicros (Fixed.state_machine 50 120 360 u) = 50
  /\ pin_level Fixed.PAS_PIN (Fixed.out (Fixed.state_machine 50 120 360 u))
     = LOW.
Proof.
  intros s u.
  assert (H1 : 0 < currentFrequency (pas s)) by (vm_compute; reflexivity).
  assert (H2 : 0 <= lastToggleMicros (pas s) < ULONG_MODULUS)
    by (vm_compute; split; [discriminate | reflexivity]).
  assert (H3 : 0 <= Fixed.previousMicros u < ULONG_MODULUS)
    by (vm_compute; split; [discriminate | reflexivity]).
  assert (H4 : Fixed.THROTTLE_MIN < 900) by reflexivity.
  assert (H5 : 0 <= 150 < ULONG_MODULUS)
    by (vm_compute; split; [discriminate | reflexivity]).
  split; [repeat split; first [assumption | apply H2 | apply H3 | apply H5] |].
  split; [reflexivity |].
  destruct (C3_wraparound_safe s u 120 360 900 150 H1 H2 H3 H4 H5)
    as [[Hel [Hdue _]] [[_ [Hdue_u _]] _]].
  split; [exact Hel |].
  assert (Hreq : 120 <= 150) by lia.
  destruct (Hdue Hreq) as [A1 [A2 A3]].
  destruct (Hdue_u Hreq) as [B1 [B2 [_ B4]]].
  repeat split; assumption.
Defined.

(** The fixed-calibration state machine measures time the same way. *)
Lemma Fixed_wraparound_safe : forall (u : Fixed.State) (high low d : Z),
  0 <= Fixed.previousMicros u < ULONG_MODULUS ->
  0 <= d < ULONG_MODULUS ->
  let now := to_ulong (Fixed.previousMicros u + d) in
  let required := if Fixed.pasState u then high else low in
  let u' := Fixed.state_machine now high low u in
  (required <= d ->
   Fixed.pasState u' = negb (Fixed.pasState u)
   /\ Fixed.previousMicros u' = now)
  /\ (d < required -> u' = u).
Proof.
  intros u high low d Hprev Hd now required u'. subst u' required.
  assert (Hel : ulong_sub now (Fixed.previousMicros u) = d)
    by (apply ulong_sub_elapsed; assumption).
  destruct (Fixed_state_machine_step now high low u) as [F1 [F2 F3]].
  rewrite Hel in F1, F2, F3.
  destruct (Fixed.pasState u) eqn:Hs; split; intros Hreq.
  - rewrite (F1 eq_refl Hreq). split; reflexivity.
  - apply F3. left. split; [reflexivity | exact Hreq].
  - rewrite (F2 eq_refl Hreq). split; reflexivity.
  - apply F3. right. split; [reflexivity | exact Hreq].
Qed.

(** ** Flag and pin agree *)

(** The invariant: the level flag is the level of the PAS pin.  An
    evaluation either leaves both alone or sets both to one level. *)
Lemma updatePASSignal_writes : forall (now : Z) (s : State),
  let s' := updatePASSignal now s in
  (out s' = out s /\ outputHigh (pas s') = outputHigh (pas s))
  \/ (exists level : bool,
        out s' = DigitalWrite PAS_PIN level :: out s
        /\ outputHigh (pas s') = level).
Proof.
  intros now s. unfold updatePASSignal.
  destruct (currentFrequency (pas s) <=? 0).
  - right. exists LOW. split; reflexivity.
  - destruct (outputHigh (pas s)) eqn:Hflag.
    + destruct (_ <=? _).
      * right. exists LOW. split; reflexivity.
      * left. split; [reflexivity | exact Hflag].
    + destruct (_ <=? _).
      * right. exists HIGH. split; reflexivity.
      * left. split; [reflexivity | exact Hflag].
Qed.

Lemma updatePASSignal_flag_pin : forall (now : Z) (s : State),
  outputHigh (pas s) = pin_level PAS_PIN (out s) ->
  outputHigh (pas (updatePASSignal now s))
  = pin_level PAS_PIN (out (updatePASSignal now s)).
Proof.
  intros now s Hinv.
  destruct (updatePASSignal_writes now s) as [[Ho Hf] | [level [Ho Hf]]].
  - rewrite Ho, Hf. exact Hinv.
  - rewrite Ho, Hf. reflexivity.
Qed.

Lemma updateBuzzSignal_pas : forall (now : Z) (s : State),
  pas (updateBuzzSignal now s) = pas s
  /\ pin_level PAS_PIN (out (updateBuzzSignal now s))
     = pin_level PAS_PIN (out s).
Proof.
  intros now s. unfold updateBuzzSignal.
  destruct (negb DEBUG_MODE || (periodMicros (buzz s) =? 0)).
  - split; reflexivity.
  - destruct (_ <=? _); split; reflexivity.
Qed.

Lemma updateSerialOutput_pas : forall (now : Z) (s : State),
  pas (updateSerialOutput now s) = pas s
  /\ pin_level PAS_PIN (out (updateSerialOutput now s))
     = pin_level PAS_PIN (out s).
Proof.
  intros now s. unfold updateSerialOutput.
  destruct (_ <=? _); split; reflexivity.
Qed.

Lemma timings_keep_flag : forall (f g : Z) (s : State),
  let s' := updateBuzzTimings g (updatePASTimings f s) in
  outputHigh (pas s') = outputHigh (pas s)
  /\ lastToggleMicros (pas s') = lastToggleMicros (pas s)
  /\ currentFrequency (pas s') = f
  /\ out s' = out s.
Proof.
  intros f g s. unfold updateBuzzTimings, updatePASTimings.
  destruct (0 <? g); destruct (0 <? f); repeat split; reflexivity.
Qed.

Lemma is_intb_spec : forall z : Z, is_intb z = true -> is_int z.
Proof.
  intros z H. unfold is_intb in H. apply andb_prop in H.
  destruct H as [H1 H2]. apply Z.leb_le in H1. apply Z.leb_le in H2.
  split; assumption.
Qed.

(** With the configured table [interpolate] never divides by zero, so a
    pass of [loop] always completes. *)
Lemma processThrottleInput_total : forall (adc : Z) (s : State),
  is_int adc -> exists s1 : State, processThrottleInput adc s = Some s1.
Proof.
  intros adc s Hadc. unfold processThrottleInput. cbn [throttleValue].
  destruct (at_ throttlePoints 0 <? adc); [| eauto].
  destruct (interpolate_defined adc throttlePoints frequencyPoints tableSize)
    as [f Hf]; try reflexivity; try exact Hadc.
  - vm_compute. discriminate.
  - rewrite Hf. eauto.
Qed.

Lemma processThrottleInput_keeps : forall (adc : Z) (s s1 : State),
  processThrottleInput adc s = Some s1 ->
  outputHigh (pas s1) = outputHigh (pas s)
  /\ lastToggleMicros (pas s1) = lastToggleMicros (pas s)
  /\ out s1 = out s.
Proof.
  intros adc s s1 H. unfold processThrottleInput in H. cbn [throttleValue] in H.
  destruct (at_ throttlePoints 0 <? adc).
  - destruct (interpolate adc throttlePoints frequencyPoints tableSize)
      as [f |]; [| discriminate].
    injection H as <-.
    destruct (timings_keep_flag f f
                (mkState (pas s) (buzz s) adc (lastSerialOutput s) (out s)))
      as [H1 [H2 [_ H4]]].
    auto.
  - injection H as <-.
    destruct (timings_keep_flag 0 0
                (mkState (pas s) (buzz s) adc (lastSerialOutput s) (out s)))
      as [H1 [H2 [_ H4]]].
    auto.
Qed.

Lemma loop_flag_pin : forall (now adc : Z) (s s' : State),
  loop now adc s = Some s' ->
  outputHigh (pas s) = pin_level PAS_PIN (out s) ->
  outputHigh (pas s') = pin_level PAS_PIN (out s').
Proof.
  intros now adc s s' H Hinv. unfold loop in H.
  destruct (processThrottleInput adc s) as [s1 |] eqn:H1; [| discriminate].
  injection H as <-.
  destruct (processThrottleInput_keeps adc s s1 H1) as [K1 [_ K3]].
  assert (I1 : outputHigh (pas s1) = pin_level PAS_PIN (out s1))
    by (rewrite K1, K3; exact Hinv).
  pose proof (updatePASSignal_flag_pin now s1 I1) as I2.
  destruct (updateBuzzSignal_pas now (updatePASSignal now s1)) as [B1 B2].
  cbn [DEBUG_MODE].
  destruct (updateSerialOutput_pas now
              (updateBuzzSignal now (updatePASSignal now s1))) as [S1 S2].
  rewrite S1, S2, B1, B2. exact I2.
Qed.

Lemma run_flag_pin : forall (inputs : list (Z * Z)) (s : State),
  readings_ok inputs = true ->
  outputHigh (pas s) = pin_level PAS_PIN (out s) ->
  exists s' : State,
    run inputs s = Some s'
    /\ outputHigh (pas s') = pin_level PAS_PIN (out s').
Proof.
  induction inputs as [| [now adc] rest IH]; intros s Hok Hinv.
  - exists s. split; [reflexivity | exact Hinv].
  - cbn [readings_ok forallb snd] in Hok. apply andb_prop in Hok.
    destruct Hok as [Hadc Hrest]. apply is_intb_spec in Hadc.
    cbn [run].
    destruct (processThrottleInput_total adc s Hadc) as [s1 H1].
    assert (Hl : exists s2, loop now adc s = Some s2)
      by (unfold loop; rewrite H1; eauto).
    destruct Hl as [s2 H2]. rewrite H2.
    apply IH; [exact Hrest |].
    exact (loop_flag_pin now adc s s2 H2 Hinv).
Qed.

(** The fixed-calibration sketch keeps the same invariant. *)
Lemma Fixed_loop_flag_pin : forall (now adc : Z) (s : Fixed.State),
  Fixed.pasState s = pin_level Fixed.PAS_PIN (Fixed.out s) ->
  Fixed.pasState (Fixed.loop now adc s)
  = pin_level Fixed.PAS_PIN (Fixed.out (Fixed.loop now adc s)).
Proof.
  intros now adc s Hinv. unfold Fixed.loop. cbn [Fixed.throttleValue].
  destruct (Fixed.THROTTLE_MIN <? adc); [| reflexivity].
  destruct (Fixed.timings (Fixed.frequency_of adc)) as [[total high] low].
  unfold Fixed.state_machine.
  cbn [Fixed.pasState Fixed.previousMicros Fixed.out Fixed.throttleValue].
  destruct (eqb (Fixed.pasState s) HIGH && (high <=? _)); [reflexivity |].
  destruct (eqb (Fixed.pasState s) LOW && (low <=? _)); [reflexivity |].
  exact Hinv.
Qed.

Lemma Fixed_run_flag_pin : forall (inputs : list (Z * Z)) (s : Fixed.State),
  Fixed.pasState s = pin_level Fixed.PAS_PIN (Fixed.out s) ->
  Fixed.pasState (Fixed.run inputs s)
  = pin_level Fixed.PAS_PIN (Fixed.out (Fixed.run inputs s)).
Proof.
  induction inputs as [| r rest IH]; intros s Hinv.
  - exact Hinv.
  - unfold Fixed.run. cbn [fold_left]. apply IH.
    apply Fixed_loop_flag_pin. exact Hinv.
Qed.

(** C10. In every execution (any sequence of passes after [setup]) and at
    every evaluation of [updatePASSignal], the evaluation either writes
    nothing and leaves the flag alone, or writes one level to the PAS pin
    and sets the flag to that level; afterwards the flag is the level of the
    pin.  The fixed-calibration [loop] keeps the same agreement between
    [pasState] and the pin. *)
Theorem C10_flag_matches_pin : forall (inputs : list (Z * Z)) (now adc : Z),
  readings_ok inputs = true -> is_int adc ->
  (exists s s1 : State,
     run inputs setup = Some s
     /\ processThrottleInput adc s = Some s1
     /\ let s2 := updatePASSignal now s1 in
        outputHigh (pas s2) = pin_level PAS_PIN (out s2)
        /\ ((out s2 = out s1 /\ outputHigh (pas s2) = outputHigh (pas s1))
            \/ (exists level : bool,
                  out s2 = DigitalWrite PAS_PIN level :: out s1
                  /\ outputHigh (pas s2) = level)))
  /\ (let t := Fixed.loop now adc (Fixed.run inputs Fixed.setup) in
      Fixed.pasState t = pin_level Fixed.PAS_PIN (Fixed.out t)).
Proof.
  intros inputs now adc Hok Hadc. split.
  - destruct (run_flag_pin inputs setup Hok eq_refl) as [s [Hrun Hinv]].
    destruct (processThrottleInput_total adc s Hadc) as [s1 H1].
    exists s, s1. split; [exact Hrun |]. split; [exact H1 |].
    destruct (processThrottleInput_keeps adc s s1 H1) as [K1 [_ K3]].
    split.
    + apply updatePASSignal_flag_pin. rewrite K1, K3. exact Hinv.
    + apply updatePASSignal_writes.
  - apply Fixed_loop_flag_pin. apply Fixed_run_flag_pin. reflexivity.
Qed.

Lemma C10_flag_matches_pin_witness :
  (readings_ok [(100000, 900); (100010, 100); (140000, 600)] = true
   /\ is_int 900)
  /\ (exists s s1 : State,
        run [(100000, 900); (100010, 100); (140000, 600)] setup = Some s
        /\ processThrottleInput 900 s = Some s1
        /\ let s2 := updatePASSignal 200000 s1 in
           outputHigh (pas s2) = pin_level PAS_PIN (out s2)
           /\ ((out s2 = out s1 /\ outputHigh (pas s2) = outputHigh (pas s1))
               \/ (exists level : bool,
                     out s2 = DigitalWrite PAS_PIN level :: out s1
                     /\ outputHigh (pas s2) = level))).
Proof.
  assert (H1 : readings_ok [(100000, 900); (100010, 100); (140000, 600)]
               = true) by reflexivity.
  assert (H2 : is_int 900) by (unfold is_int, INT_MIN, INT_MAX; lia).
  split; [split; assumption |].
  exact (proj1 (C10_flag_matches_pin _ 200000 900 H1 H2)).
Defined.

(** ** The timing calculator *)

Lemma quarter_exact : (fquo (float_of_Z 25) (inject_Z 100) == 1 # 4)%Q.
Proof.
  unfold fquo. rewrite (float_of_Z_exact 25) by (vm_compute; reflexivity).
  assert (H : (inject_Z 25 / inject_Z 100 == inject_Z 1 * two ^ (-2))%Q)
    by reflexivity.
  rewrite H, flt_dyadic by (vm_compute; reflexivity). reflexivity.
Qed.

(** Multiplying a period by [DUTY_CYCLE / 100.0] and converting back to
    [unsigned long] is the integer computation [period * 25 / 100]. *)
Lemma duty_high_time : forall total : Z,
  0 <= total <= 1000000 ->
  ulong_of_float (fmul (float_of_Z total) (fquo (float_of_Z 25) (inject_Z 100)))
  = total * 25 / 100.
Proof.
  intros total Ht.
  assert (Hs : Z.abs total < 16777216) by lia.
  assert (Hv : (fmul (float_of_Z total) (fquo (float_of_Z 25) (inject_Z 100))
                == total # 4)%Q).
  { unfold fmul. rewrite quarter_exact, (float_of_Z_exact total) by exact Hs.
    assert (H : (inject_Z total * (1 # 4) == inject_Z total * two ^ (-2))%Q)
      by reflexivity.
    rewrite H, flt_dyadic by exact Hs.
    change (two ^ (-2))%Q with (1 # 4). unfold Qeq. simpl. lia. }
  assert (Hpos : (0 <= fmul (float_of_Z total)
                           (fquo (float_of_Z 25) (inject_Z 100)))%Q).
  { rewrite Hv. unfold Qle. simpl. lia. }
  unfold ulong_of_float. rewrite (long_of_float_floor _ Hpos).
  rewrite (Qfloor_comp _ _ Hv). unfold Qfloor.
  replace (total * 25 / 100) with (total / 4)
    by (replace 100 with (4 * 25) by reflexivity;
        rewrite Z.div_mul_cancel_r by lia; reflexivity).
  apply to_ulong_small. rewrite ULONG_MODULUS_eq.
  assert (0 <= total / 4) by (apply Z.div_pos; lia).
  assert (total / 4 <= total) by (apply Z.div_le_upper_bound; lia).
  lia.
Qed.

Lemma period_range : forall f : Z, 0 < f -> 0 <= 1000000 / f <= 1000000.
Proof.
  intros f Hf. split.
  - apply Z.div_pos; lia.
  - apply Z.div_le_upper_bound; nia.
Qed.

Lemma high_le_period : forall total : Z, 0 <= total -> 0 <= total * 25 / 100 <= total.
Proof.
  intros total Ht. split.
  - apply Z.div_pos; lia.
  - apply Z.div_le_upper_bound; lia.
Qed.

Lemma LUT_timings_eq : forall f : Z,
  0 < f ->
  LUT.timings f
  = (1000000 / f, 1000000 / f * 25 / 100,
     1000000 / f - 1000000 / f * 25 / 100).
Proof.
  intros f Hf. unfold LUT.timings, LUT.DUTY_CYCLE.
  pose proof (period_range f Hf) as Hp.
  pose proof (high_le_period (1000000 / f) (proj1 Hp)) as Hh.
  rewrite Z.quot_div_nonneg by lia.
  rewrite (to_ulong_small (1000000 / f)) by (rewrite ULONG_MODULUS_eq; lia).
  rewrite duty_high_time by exact Hp.
  unfold ulong_sub. rewrite to_ulong_small by (rewrite ULONG_MODULUS_eq; lia).
  reflexivity.
Qed.

Lemma Fixed_timings_eq : forall f : Z, Fixed.timings f = LUT.timings f.
Proof. reflexivity. Qed.

Lemma updatePASTimings_active : forall (f : Z) (s : State),
  0 < f <= LONG_MAX ->
  pas (updatePASTimings f s)
  = mkPAS (outputHigh (pas s)) (lastToggleMicros (pas s))
      (1000000 / f * 25 / 100) (1000000 / f - 1000000 / f * 25 / 100) f.
Proof.
  intros f s [Hf Hmax]. unfold LONG_MAX in Hmax.
  unfold updatePASTimings, DUTY_CYCLE.
  assert (Hact : (0 <? f) = true) by (apply Z.ltb_lt; exact Hf).
  rewrite Hact. cbn [set_pas pas outputHigh lastToggleMicros
                     highDurationMicros lowDurationMicros].
  pose proof (period_range f Hf) as Hp.
  pose proof (high_le_period (1000000 / f) (proj1 Hp)) as Hh.
  rewrite (to_ulong_small f) by (rewrite ULONG_MODULUS_eq; lia).
  rewrite (to_ulong_small 25) by (rewrite ULONG_MODULUS_eq; lia).
  unfold ulong_mul, ulong_sub.
  rewrite (to_ulong_small (1000000 / f * 25))
    by (rewrite ULONG_MODULUS_eq; lia).
  rewrite to_ulong_small by (rewrite ULONG_MODULUS_eq; lia).
  reflexivity.
Qed.

(** C2. For a frequency [f > 0] (a [long]) the hold durations computed by
    [updatePASTimings], and those computed in the [loop] of the lookup-table
    and fixed-calibration sketches, satisfy [high + low = 1000000 / f] and
    [high = (1000000 / f) * DUTY_CYCLE / 100] in integer arithmetic. *)
Theorem C2_timing_correct : forall (f : Z) (s : State),
  0 < f <= LONG_MAX ->
  let p := pas (updatePASTimings f s) in
  (highDurationMicros p + lowDurationMicros p = 1000000 / f
   /\ highDurationMicros p = 1000000 / f * DUTY_CYCLE / 100
   /\ currentFrequency p = f)
  /\ (forall total high low : Z,
        LUT.timings f = (total, high, low) ->
        total = 1000000 / f
        /\ high + low = 1000000 / f
        /\ high = 1000000 / f * LUT.DUTY_CYCLE / 100)
  /\ Fixed.timings f = LUT.timings f.
Proof.
  intros f s Hf p. subst p. rewrite (updatePASTimings_active f s Hf).
  cbn [highDurationMicros lowDurationMicros currentFrequency].
  unfold DUTY_CYCLE, LUT.DUTY_CYCLE.
  split; [| split].
  - repeat split. lia.
  - intros total high low H.
    rewrite (LUT_timings_eq f (proj1 Hf)) in H.
    injection H as <- <- <-. repeat split. lia.
  - reflexivity.
Qed.

Lemma C2_timing_correct_witness :
  0 < 14 <= LONG_MAX
  /\ (let p := pas (updatePASTimings 14 setup) in
      highDurationMicros p + lowDurationMicros p = 1000000 / 14
      /\ highDurationMicros p = 1000000 / 14 * DUTY_CYCLE / 100
      /\ currentFrequency p = 14).
Proof.
  assert (H : 0 < 14 <= LONG_MAX) by (unfold LONG_MAX; lia).
  split; [exact H |].
  exact (proj1 (C2_timing_correct 14 setup H)).
Defined.

(** C7 (as the sketch computes it). With the fixed calibration the sample
    520 maps to 15 Hz; the period is the integer quotient
    [1000000 / 15 = 66666] microseconds, of which 16666 are high and 50000
    are low. *)
Theorem C7_fixed_scenario :
  Fixed.THROTTLE_MIN = 220 /\ Fixed.THROTTLE_MAX = 820
  /\ Fixed.MIN_FREQUENCY = 5 /\ Fixed.MAX_FREQUENCY = 25
  /\ Fixed.DUTY_CYCLE = 25
  /\ Fixed.frequency_of 520 = 15
  /\ Fixed.timings (Fixed.frequency_of 520) = (66666, 16666, 50000).
Proof. repeat split; vm_compute; reflexivity. Qed.

(** The period is not 66667 and the low phase is not 50001 microseconds. *)
Lemma C7_fixed_scenario_counterexample :
  ~ (Fixed.frequency_of 520 = 15
     /\ Fixed.timings (Fixed.frequency_of 520) = (66667, 16666, 50001)).
Proof. intros [_ H]. vm_compute in H. discriminate H. Qed.

(** ** The dead zone *)

Lemma interpolate_dead_zone : forall (v : Z) (inT outT : list Z) (N : Z),
  v <= at_ inT 0 -> interpolate v inT outT N = Some (at_ outT 0).
Proof.
  intros v inT outT N H. unfold interpolate.
  apply Z.leb_le in H. rewrite H. reflexivity.
Qed.

Lemma processThrottleInput_target : forall (adc : Z) (s : State),
  processThrottleInput adc s
  = match target_frequency adc with
    | Some f =>
        Some (updateBuzzTimings f
                (updatePASTimings f
                   (mkState (pas s) (buzz s) adc (lastSerialOutput s) (out s))))
    | None => None
    end.
Proof.
  intros adc s. unfold processThrottleInput, target_frequency.
  cbn [throttleValue]. destruct (at_ throttlePoints 0 <? adc); reflexivity.
Qed.

(** One pass of the v3 [loop] whose target frequency is not positive. *)
Lemma loop_forced_off : forall (now adc f : Z) (s : State),
  target_frequency adc = Some f -> f <= 0 ->
  exists s' : State,
    loop now adc s = Some s'
    /\ currentFrequency (pas s') = f
    /\ outputHigh (pas s') = false
    /\ lastToggleMicros (pas s') = lastToggleMicros (pas s)
    /\ pin_level PAS_PIN (out s') = LOW.
Proof.
  intros now adc f s Hf Hoff. unfold loop.
  rewrite processThrottleInput_target, Hf.
  eexists. split; [reflexivity |].
  set (s0 := mkState (pas s) (buzz s) adc (lastSerialOutput s) (out s)).
  set (s1 := updateBuzzTimings f (updatePASTimings f s0)).
  destruct (timings_keep_flag f f s0) as [_ [K2 [K3 _]]]. fold s1 in K2, K3.
  assert (Hz : (currentFrequency (pas s1) <=? 0) = true)
    by (apply Z.leb_le; rewrite K3; exact Hoff).
  assert (Hp : pas (updatePASSignal now s1)
               = mkPAS false (lastToggleMicros (pas s1))
                   (highDurationMicros (pas s1)) (lowDurationMicros (pas s1))
                   (currentFrequency (pas s1))
               /\ out (updatePASSignal now s1)
                  = DigitalWrite PAS_PIN LOW :: out s1).
  { unfold updatePASSignal. rewrite Hz. split; reflexivity. }
  destruct Hp as [Hp Ho].
  destruct (updateBuzzSignal_pas now (updatePASSignal now s1)) as [B1 B2].
  cbn [DEBUG_MODE].
  destruct (updateSerialOutput_pas now
              (updateBuzzSignal now (updatePASSignal now s1))) as [S1 S2].
  rewrite S1, S2, B1, B2, Hp, Ho.
  cbn [currentFrequency outputHigh lastToggleMicros].
  rewrite K2, K3. repeat split.
Qed.

Lemma target_frequency_dead_zone : forall adc : Z,
  adc <= at_ throttlePoints 0 -> target_frequency adc = Some 0.
Proof.
  intros adc H. unfold target_frequency.
  apply Z.ltb_ge in H. rewrite H. reflexivity.
Qed.

(** C5. A sample at or below the dead-zone threshold makes the curve mapper
    return the table's first output (the sentinel 0), and in all three
    sketches the pass completes with the PAS pin written low and the level
    flag cleared. *)
Theorem C5_dead_zone : forall (now adc : Z) (s : State) (t : LUT.State)
    (u : Fixed.State),
  adc <= at_ throttlePoints 0 ->
  adc <= Fixed.THROTTLE_MIN ->
  interpolate adc throttlePoints frequencyPoints tableSize
  = Some (at_ frequencyPoints 0)
  /\ (exists s' : State,
        loop now adc s = Some s'
        /\ currentFrequency (pas s') = at_ frequencyPoints 0
        /\ outputHigh (pas s') = false
        /\ pin_level PAS_PIN (out s') = LOW)
  /\ (exists t' : LUT.State,
        LUT.loop now adc t = Some t'
        /\ LUT.pasState t' = LOW
        /\ pin_level LUT.PAS_PIN (LUT.out t') = LOW)
  /\ (Fixed.pasState (Fixed.loop now adc u) = LOW
      /\ pin_level Fixed.PAS_PIN (Fixed.out (Fixed.loop now adc u)) = LOW).
Proof.
  intros now adc s t u Hlut Hfix. split; [| split; [| split]].
  - apply interpolate_dead_zone. exact Hlut.
  - destruct (loop_forced_off now adc 0 s
                (target_frequency_dead_zone adc Hlut) (Z.le_refl 0))
      as [s' [H1 [H2 [H3 [_ H5]]]]].
    exists s'. repeat split; assumption.
  - unfold LUT.loop. cbn [LUT.throttleValue].
    assert (Hd : (at_ LUT.throttlePoints 0 <? adc) = false)
      by (apply Z.ltb_ge; exact Hlut).
    rewrite Hd. eexists. repeat split.
  - unfold Fixed.loop. cbn [Fixed.throttleValue].
    assert (Hd : (Fixed.THROTTLE_MIN <? adc) = false)
      by (apply Z.ltb_ge; exact Hfix).
    rewrite Hd. split; reflexivity.
Qed.

Lemma C5_dead_zone_witness :
  (100 <= at_ throttlePoints 0 /\ 100 <= Fixed.THROTTLE_MIN)
  /\ interpolate 100 throttlePoints frequencyPoints tableSize = Some 0
  /\ (exists s' : State,
        loop 5000 100 setup = Some s'
        /\ currentFrequency (pas s') = at_ frequencyPoints 0
        /\ outputHigh (pas s') = false
        /\ pin_level PAS_PIN (out s') = LOW).
Proof.
  assert (H1 : 100 <= at_ throttlePoints 0) by (vm_compute; discriminate).
  assert (H2 : 100 <= Fixed.THROTTLE_MIN) by (vm_compute; discriminate).
  split; [split; assumption |].
  destruct (C5_dead_zone 5000 100 setup LUT.setup Fixed.setup H1 H2)
    as [Hi [Hl _]].
  split; [exact Hi | exact Hl].
Defined.

(** ** Returning from the forced-off state *)






(** ** The curve mapper *)

Lemma constrain_mono : forall a b low high : Z,
  low <= high -> a <= b ->
  Arduino.constrain a low high <= Arduino.constrain b low high.
Proof.
  intros a b low high Hlh Hab. unfold Arduino.constrain.
  destruct (Z.ltb_spec a low); destruct (Z.ltb_spec b low);
    destruct (Z.ltb_spec high a); destruct (Z.ltb_spec high b); lia.
Qed.

Lemma Fixed_frequency_mono : forall s1 s2 : Z,
  s1 <= s2 -> Fixed.frequency_of s1 <= Fixed.frequency_of s2.
Proof.
  intros s1 s2 H. unfold Fixed.frequency_of.
  apply constrain_mono; [vm_compute; discriminate |].
  unfold Arduino.map, Fixed.THROTTLE_MIN, Fixed.THROTTLE_MAX,
    Fixed.MIN_FREQUENCY, Fixed.MAX_FREQUENCY.
  apply Z.add_le_mono_r. apply Z.quot_le_mono; lia.
Qed.

(** C4 (as the sketches compute it). The fixed-calibration mapping is
    non-decreasing in the sample.  The lookup-table mapping is non-decreasing
    for every table whose inputs are non-decreasing 16-bit values and whose
    outputs are non-decreasing, non-negative 16-bit values: it returns a
    result for both samples and the results are ordered. *)
Theorem C4_curve_monotone : forall (s1 s2 : Z) (inT outT : list Z) (N : Z),
  s1 < s2 ->
  N = Z.of_nat (length inT) -> N = Z.of_nat (length outT) -> 1 <= N ->
  non_decreasing inT = true -> non_decreasing outT = true ->
  in_range INT_MIN INT_MAX inT = true -> in_range 0 INT_MAX outT = true ->
  Fixed.frequency_of s1 <= Fixed.frequency_of s2
  /\ exists r1 r2 : Z,
       interpolate s1 inT outT N = Some r1
       /\ interpolate s2 inT outT N = Some r2
       /\ r1 <= r2.
Proof.
  intros s1 s2 inT outT N H12 Hin Hout HN Sin Sout Rin Rout. split.
  - apply Fixed_frequency_mono. lia.
  - apply interpolate_monotone; try assumption. lia.
Qed.

Lemma C4_curve_monotone_witness :
  (499 < 600
   /\ LUT.tableSize = Z.of_nat (length LUT.throttlePoints)
   /\ LUT.tableSize = Z.of_nat (length LUT.frequencyPoints)
   /\ 1 <= LUT.tableSize
   /\ non_decreasing LUT.throttlePoints = true
   /\ non_decreasing LUT.frequencyPoints = true
   /\ in_range INT_MIN INT_MAX LUT.throttlePoints = true
   /\ in_range 0 INT_MAX LUT.frequencyPoints = true)
  /\ Fixed.frequency_of 499 <= Fixed.frequency_of 600
  /\ exists r1 r2 : Z,
       interpolate 499 LUT.throttlePoints LUT.frequencyPoints LUT.tableSize
       = Some r1
       /\ interpolate 600 LUT.throttlePoints LUT.frequencyPoints LUT.tableSize
          = Some r2
       /\ r1 <= r2.
Proof.
  assert (H1 : 499 < 600) by reflexivity.
  assert (H2 : LUT.tableSize = Z.of_nat (length LUT.throttlePoints))
    by reflexivity.
  assert (H3 : LUT.tableSize = Z.of_nat (length LUT.frequencyPoints))
    by reflexivity.
  assert (H4 : 1 <= LUT.tableSize) by (vm_compute; discriminate).
  assert (H5 : non_decreasing LUT.throttlePoints = true) by reflexivity.
  assert (H6 : non_decreasing LUT.frequencyPoints = true) by reflexivity.
  assert (H7 : in_range INT_MIN INT_MAX LUT.throttlePoints = true)
    by reflexivity.
  assert (H8 : in_range 0 INT_MAX LUT.frequencyPoints = true) by reflexivity.
  split; [repeat split; assumption |].
  exact (C4_curve_monotone 499 600 _ _ _ H1 H2 H3 H4 H5 H6 H7 H8).
Defined.

(** A table with non-decreasing inputs and outputs on which the mapping
    decreases.  At the sample 1023 the product [1023 * 20001] is rounded up
    to 20461024, the quotient by 1023 is rounded up to 20001 + 1/512, the
    sum with -20002 is -511/512, and truncation toward zero gives 0; the next
    sample 1024 lies on the flat segment and gives -1. *)
Lemma C4_curve_monotone_counterexample :
  non_decreasing [0; 1023; 2000] = true
  /\ non_decreasing [-20002; -1; -1] = true
  /\ interpolate 1023 [0; 1023; 2000] [-20002; -1; -1] 3 = Some 0
  /\ interpolate 1024 [0; 1023; 2000] [-20002; -1; -1] 3 = Some (-1)
  /\ ~ (forall r1 r2 : Z,
          interpolate 1023 [0; 1023; 2000] [-20002; -1; -1] 3 = Some r1 ->
          interpolate 1024 [0; 1023; 2000] [-20002; -1; -1] 3 = Some r2 ->
          r1 <= r2).
Proof.
  assert (E1 : interpolate 1023 [0; 1023; 2000] [-20002; -1; -1] 3 = Some 0)
    by (vm_compute; reflexivity).
  assert (E2 : interpolate 1024 [0; 1023; 2000] [-20002; -1; -1] 3 = Some (-1))
    by (vm_compute; reflexivity).
  repeat split; try reflexivity; try assumption.
  intros H. specialize (H 0 (-1) E1 E2). lia.
Qed.

(** C9 (as the sketch computes it). For every table whose inputs are
    non-decreasing 16-bit values and whose outputs are non-decreasing,
    non-negative 16-bit values, and for every sample, [interpolate] returns a
    value between the first and the last output of the table. *)
Theorem C9_interpolate_bounded : forall (v : Z) (inT outT : list Z) (N : Z),
  N = Z.of_nat (length inT) -> N = Z.of_nat (length outT) -> 1 <= N ->
  non_decreasing inT = true -> non_decreasing outT = true ->
  in_range INT_MIN INT_MAX inT = true -> in_range 0 INT_MAX outT = true ->
  exists r : Z,
    interpolate v inT outT N = Some r
    /\ at_ outT 0 <= r <= at_ outT (N - 1).
Proof.
  intros v inT outT N Hin Hout HN Sin Sout Rin Rout.
  destruct (interpolate_bounded v inT outT N Hin Hout HN Sin Sout Rin Rout)
    as [r [E [B _]]].
  exists r. split; assumption.
Qed.

Lemma C9_interpolate_bounded_witness :
  (LUT.tableSize = Z.of_nat (length LUT.throttlePoints)
   /\ LUT.tableSize = Z.of_nat (length LUT.frequencyPoints)
   /\ 1 <= LUT.tableSize
   /\ non_decreasing LUT.throttlePoints = true
   /\ non_decreasing LUT.frequencyPoints = true
   /\ in_range INT_MIN INT_MAX LUT.throttlePoints = true
   /\ in_range 0 INT_MAX LUT.frequencyPoints = true)
  /\ exists r : Z,
       interpolate 600 LUT.throttlePoints LUT.frequencyPoints LUT.tableSize
       = Some r
       /\ at_ LUT.frequencyPoints 0 <= r
          <= at_ LUT.frequencyPoints (LUT.tableSize - 1).
Proof.
  assert (H2 : LUT.tableSize = Z.of_nat (length LUT.throttlePoints))
    by reflexivity.
  assert (H3 : LUT.tableSize = Z.of_nat (length LUT.frequencyPoints))
    by reflexivity.
  assert (H4 : 1 <= LUT.tableSize) by (vm_compute; discriminate).
  assert (H5 : non_decreasing LUT.throttlePoints = true) by reflexivity.
  assert (H6 : non_decreasing LUT.frequencyPoints = true) by reflexivity.
  assert (H7 : in_range INT_MIN INT_MAX LUT.throttlePoints = true)
    by reflexivity.
  assert (H8 : in_range 0 INT_MAX LUT.frequencyPoints = true) by reflexivity.
  split; [repeat split; assumption |].
  exact (C9_interpolate_bounded 600 _ _ _ H2 H3 H4 H5 H6 H7 H8).
Defined.

(** A sorted table with negative outputs on which the result exceeds the
    last output: the rounded value -511/512 is truncated toward zero. *)
Lemma C9_interpolate_bounded_counterexample :
  non_decreasing [0; 1023; 2000] = true
  /\ non_decreasing [-20002; -1; -1] = true
  /\ at_ [-20002; -1; -1] (3 - 1) = -1
  /\ interpolate 1023 [0; 1023; 2000] [-20002; -1; -1] 3 = Some 0
  /\ ~ (forall r : Z,
          interpolate 1023 [0; 1023; 2000] [-20002; -1; -1] 3 = Some r ->
          at_ [-20002; -1; -1] 0 <= r <= at_ [-20002; -1; -1] (3 - 1)).
Proof.
  assert (E : interpolate 1023 [0; 1023; 2000] [-20002; -1; -1] 3 = Some 0)
    by (vm_compute; reflexivity).
  repeat split; try reflexivity; try assumption.
  intros H. specialize (H 0 E). vm_compute in H. destruct H as [_ H].
  apply H. reflexivity.
Qed.

Section Duplicates.
Local Open Scope Z_scope.


End Duplicates.




(** ** Cross-checks of [round] against the Standard Library's IEEE-754
       specification *)

Example round_agrees_on_product :
  SF.to_Q (SF.mul (SF.of_Z 1023) (SF.of_Z 20001))
  = Some (fmul (float_of_Z 1023) (float_of_Z 20001)).
Proof. vm_compute. reflexivity. Qed.

Example round_agrees_on_quotient :
  option_map Some
    (SF.to_Q (SF.div (SF.mul (SF.of_Z 1023) (SF.of_Z 20001)) (SF.of_Z 1023)))
  = Some (fdiv (fmul (float_of_Z 1023) (float_of_Z 20001)) (float_of_Z 1023)).
Proof. vm_compute. reflexivity. Qed.

Example round_agrees_on_result :
  SF.to_Q
    (SF.add (SF.of_Z (-20002))
       (SF.div
          (SF.mul (SF.sub (SF.of_Z 1023) (SF.of_Z 0))
             (SF.sub (SF.of_Z (-1)) (SF.of_Z (-20002))))
          (SF.sub (SF.of_Z 1023) (SF.of_Z 0))))
  = Some (-511 # 512)%Q
  /\ fadd (float_of_Z (-20002))
       (fquo (fmul (fsub (float_of_Z 1023) (float_of_Z 0))
                (fsub (float_of_Z (-1)) (float_of_Z (-20002))))
          (fsub (float_of_Z 1023) (float_of_Z 0)))
     = (-511 # 512)%Q.
Proof. split; vm_compute; reflexivity. Qed.

Example round_agrees_on_third :
  SF.to_Q (SF.div (SF.of_Z 1) (SF.of_Z 3))
  = Some (fquo (inject_Z 1) (inject_Z 3)).
Proof. vm_compute. reflexivity. Qed.

(** The same agreement on a grid of segments, samples and output steps,
    among them products that do not fit in 24 bits. *)
Example round_agrees_on_grid :
  forallb
    (fun x1 =>
       forallb
         (fun y0 =>
            forallb
              (fun dy =>
                 forallb
                   (fun v =>
                      match
                        fdiv (fmul (fsub (float_of_Z v) (float_of_Z 0))
                                (fsub (float_of_Z (y0 + dy)) (float_of_Z y0)))
                          (fsub (float_of_Z x1) (float_of_Z 0)),
                        SF.segment v 0 y0 x1 (y0 + dy)
                      with
                      | Some q, Some r => Qeq_bool (fadd (float_of_Z y0) q) r
                      | _, _ => false
                      end)
                   [1; x1 / 3 + 1; x1 / 2 + 1; x1])
              [0; 1; 3; 8; 17; 4099; 20001; 32707])
         [-20002; -1; 0; 5; 14])
    [1; 3; 7; 130; 421; 513; 977; 1000; 1023; 4097; 32767]
  = true.
Proof. vm_compute. reflexivity. Qed.

(** * Further properties *)

(** ** [interpolate] on tables in the ADC range *)

Section Exact.
Local Open Scope Q_scope.

(** With a segment at most 1024 wide and outputs up to 16383 the rounded
    formula stays within the integer quotient and the next integer. *)
Lemma interp_value_exact : forall dx dy w y0 : Z,
  (0 <= dx <= w)%Z -> (0 < w <= 1024)%Z -> (0 <= dy)%Z -> (0 <= y0)%Z ->
  (y0 + dy <= 16383)%Z ->
  Qfloor (round FLT_MANT_DIG
            (inject_Z y0
             + round FLT_MANT_DIG
                 (round FLT_MANT_DIG (inject_Z dx * inject_Z dy)
                  / inject_Z w)))
  = (y0 + dx * dy / w)%Z.
Proof.
  intros dx dy w y0 Hdx Hw Hdy Hy0 Hy1.
  set (n := (dx * dy)%Z). set (a := (n / w)%Z).
  assert (Hn : (0 <= n <= 1024 * 16383)%Z).
  { unfold n. split; [apply Z.mul_nonneg_nonneg; lia |].
    apply Z.mul_le_mono_nonneg; lia. }
  assert (Ha : (0 <= a <= dy)%Z).
  { unfold a. split; [apply Z.div_pos; lia |].
    apply Z.div_le_upper_bound; [lia |]. unfold n.
    apply Z.mul_le_mono_nonneg_r; lia. }
  assert (Hdiv : (w * a <= n < w * a + w)%Z).
  { unfold a. pose proof (Z.mul_div_le n w ltac:(lia)).
    pose proof (Z.mul_succ_div_gt n w ltac:(lia)). lia. }
  assert (HP : round FLT_MANT_DIG (inject_Z dx * inject_Z dy) == inject_Z n).
  { rewrite <- inject_Z_mult. fold n. apply round_Z.
    unfold FLT_MANT_DIG. change (2 ^ 24)%Z with 16777216%Z. lia. }
  rewrite HP.
  assert (Qw : 0 < inject_Z w).
  { assert (H : (0 < w)%Z) by lia. rewrite Zlt_Qlt in H. exact H. }
  assert (Qw' : inject_Z w <= 1024).
  { assert (H : (w <= 1024)%Z) by lia. rewrite Zle_Qle in H. exact H. }
  assert (Qn1 : inject_Z w * inject_Z a <= inject_Z n).
  { rewrite <- inject_Z_mult, <- Zle_Qle. lia. }
  assert (Qn2 : inject_Z n <= inject_Z w * inject_Z a + inject_Z w - 1).
  { assert (H : (n <= w * a + w - 1)%Z) by lia. rewrite Zle_Qle in H.
    unfold Z.sub in H. rewrite !inject_Z_plus, inject_Z_mult in H. exact H. }
  assert (Qa : 0 <= inject_Z a).
  { assert (H : (0 <= a)%Z) by lia. rewrite Zle_Qle in H. exact H. }
  assert (Qy : 0 <= inject_Z y0).
  { rewrite Zle_Qle in Hy0. exact Hy0. }
  (* the quotient lies between [a] and [a + 1 - 1/1024] *)
  set (U := inject_Z ((a + 1) * 1024 - 1) * two ^ (-10)).
  assert (HU : U == inject_Z a + 1 - (1 # 1024)).
  { unfold U, Z.sub.
    rewrite inject_Z_plus, inject_Z_mult, inject_Z_plus, inject_Z_opp.
    change (two ^ (-10)) with (1 # 1024).
    change (inject_Z 1024) with (1024 # 1).
    change (inject_Z 1) with 1. field. }
  assert (Hq1 : inject_Z a <= inject_Z n / inject_Z w).
  { apply Qle_shift_div_l; [exact Qw |]. lra. }
  assert (Hq2 : inject_Z n / inject_Z w <= U).
  { apply Qle_shift_div_r; [exact Qw |]. rewrite HU.
    generalize dependent (inject_Z w). generalize dependent (inject_Z a).
    generalize dependent (inject_Z n). intros. nra. }
  assert (HD1 : inject_Z a <= round FLT_MANT_DIG (inject_Z n / inject_Z w)).
  { rewrite <- (round_Z a) at 1
      by (unfold FLT_MANT_DIG; change (2 ^ 24)%Z with 16777216%Z; lia).
    apply flt_le; assumption. }
  assert (HD2 : round FLT_MANT_DIG (inject_Z n / inject_Z w) <= U).
  { apply Qle_trans with (round FLT_MANT_DIG U);
      [| unfold U; rewrite flt_dyadic by lia; apply Qle_refl].
    apply flt_le; [lra | exact Hq2]. }
  (* the sum lies between [y0 + a] and [y0 + a + 1 - 1/1024] *)
  set (V := inject_Z ((y0 + a + 1) * 1024 - 1) * two ^ (-10)).
  assert (HV : V == inject_Z y0 + inject_Z a + 1 - (1 # 1024)).
  { unfold V, Z.sub.
    rewrite inject_Z_plus, inject_Z_mult, !inject_Z_plus, inject_Z_opp.
    change (two ^ (-10)) with (1 # 1024).
    change (inject_Z 1024) with (1024 # 1).
    change (inject_Z 1) with 1. field. }
  set (D := round FLT_MANT_DIG (inject_Z n / inject_Z w)) in *.
  assert (HR1 : inject_Z (y0 + a) <= round FLT_MANT_DIG (inject_Z y0 + D)).
  { rewrite <- (round_Z (y0 + a)) at 1
      by (unfold FLT_MANT_DIG; change (2 ^ 24)%Z with 16777216%Z; lia).
    apply flt_le; rewrite inject_Z_plus; lra. }
  assert (HR2 : round FLT_MANT_DIG (inject_Z y0 + D) <= V).
  { apply Qle_trans with (round FLT_MANT_DIG V);
      [| unfold V; rewrite flt_dyadic by lia; apply Qle_refl].
    apply flt_le; [lra | rewrite HV; lra]. }
  assert (B : (y0 + a <= Qfloor (round FLT_MANT_DIG (inject_Z y0 + D))
               <= y0 + a)%Z).
  { apply floor_between; [exact HR1 |].
    rewrite inject_Z_plus. rewrite HV in HR2. lra. }
  lia.
Qed.
End Exact.

Section ExactTables.
Local Open Scope Z_scope.

Lemma adc_is_int : forall z : Z, 0 <= z <= 16383 -> is_int z.
Proof. unfold is_int, INT_MIN, INT_MAX. lia. Qed.

Lemma interpolate_segment_exact : forall v x0 y0 x1 y1 : Z,
  0 <= x0 -> x0 < v -> v <= x1 -> x1 <= 1023 ->
  0 <= y0 -> y0 <= y1 -> y1 <= 16383 ->
  interpolate_segment v x0 y0 x1 y1
  = Some (y0 + (v - x0) * (y1 - y0) / (x1 - x0)).
Proof.
  intros v x0 y0 x1 y1 Hx0 Hv0 Hv1 Hx1 Hy0 Hy01 Hy1.
  destruct (interpolate_segment_value v x0 y0 x1 y1) as [R [E V]];
    try (apply adc_is_int; lia); try lia.
  rewrite E. f_equal.
  destruct (interp_value_bounds (v - x0) (v - x0) (y1 - y0) (x1 - x0) y0)
    as [Blo _]; try (unfold INT_MAX; lia).
  cbv beta in Blo. rewrite <- V in Blo.
  assert (Q0 : (0 <= inject_Z y0)%Q) by (rewrite Zle_Qle in Hy0; exact Hy0).
  rewrite (long_of_float_floor R) by lra.
  rewrite (Qfloor_comp _ _ V).
  apply interp_value_exact; lia.
Qed.

(** At its upper end a segment returns the upper output exactly, whether
    the outputs rise or fall. *)
Lemma interpolate_segment_knot : forall x0 y0 x1 y1 : Z,
  0 <= x0 -> x0 < x1 -> x1 <= 1023 ->
  0 <= y0 <= 16383 -> 0 <= y1 <= 16383 ->
  interpolate_segment x1 x0 y0 x1 y1 = Some y1.
Proof.
  intros x0 y0 x1 y1 Hx0 Hlt Hx1 Hy0 Hy1.
  destruct (interpolate_segment_value x1 x0 y0 x1 y1) as [R [E V]];
    try (apply adc_is_int; lia); try lia.
  rewrite E. f_equal.
  set (w := x1 - x0) in *. set (dy := y1 - y0) in *.
  assert (Hsmall : forall z : Z, Z.abs z < 16777216 ->
                   (round FLT_MANT_DIG (inject_Z z) == inject_Z z)%Q).
  { intros z Hz. apply round_Z. exact Hz. }
  assert (Hwdy : Z.abs (w * dy) < 16777216).
  { rewrite Z.abs_mul.
    apply Z.le_lt_trans with (1023 * 16383); [| reflexivity].
    apply Z.mul_le_mono_nonneg; unfold w, dy; lia. }
  assert (HR : (R == inject_Z y1)%Q).
  { rewrite V, <- inject_Z_mult, (Hsmall _ Hwdy).
    assert (Hq : (inject_Z (w * dy) / inject_Z w == inject_Z dy)%Q).
    { rewrite inject_Z_mult. field. intros H.
      apply (inject_Z_injective w 0) in H. unfold w in H. lia. }
    rewrite Hq, (Hsmall dy) by (unfold dy; lia).
    rewrite <- inject_Z_plus.
    replace (y0 + dy) with y1 by (unfold dy; lia).
    apply Hsmall. lia. }
  assert (Hpos : (0 <= R)%Q).
  { rewrite HR. assert (H : 0 <= y1) by lia. rewrite Zle_Qle in H. exact H. }
  rewrite (long_of_float_floor R Hpos), (Qfloor_comp _ _ HR).
  apply Qfloor_Z.
Qed.

Lemma increasing_nth : forall t : list Z,
  increasing t = true ->
  forall i j : nat, (i < j < length t)%nat -> nth i t 0 < nth j t 0.
Proof.
  induction t as [| a t IH]; intros Hs i j Hij.
  - simpl in Hij. lia.
  - destruct t as [| b t'].
    + simpl in Hij. lia.
    + cbn [increasing] in Hs. apply andb_prop in Hs. destruct Hs as [Hab Hs].
      apply Z.ltb_lt in Hab.
      destruct i as [| i]; destruct j as [| j]; try (exfalso; lia).
      * change (nth 0 (a :: b :: t') 0) with a.
        change (nth (S j) (a :: b :: t') 0) with (nth j (b :: t') 0).
        destruct j as [| j]; [exact Hab |].
        assert (H : nth 0 (b :: t') 0 < nth (S j) (b :: t') 0).
        { apply IH; [exact Hs |]. simpl in *. lia. }
        change (nth 0 (b :: t') 0) with b in H. lia.
      * change (nth (S i) (a :: b :: t') 0) with (nth i (b :: t') 0).
        change (nth (S j) (a :: b :: t') 0) with (nth j (b :: t') 0).
        apply IH; [exact Hs |]. simpl in *. lia.
Qed.

Lemma increasing_at : forall (t : list Z) (i j : Z),
  increasing t = true ->
  0 <= i -> i < j -> j < Z.of_nat (length t) -> at_ t i < at_ t j.
Proof.
  intros t i j Hs Hi Hij Hj. unfold at_.
  apply increasing_nth; [exact Hs | lia].
Qed.
End ExactTables.

(** X1. On a table in the ADC range (non-decreasing inputs within 0..1023,
    non-decreasing outputs within 0..16383) the floating-point
    interpolation loses nothing: the result is a boundary output or the
    integer formula [y0 + (v - x0) * (y1 - y0) / (x1 - x0)] of the segment
    around the sample. *)
Theorem interpolate_integer_formula : forall (v : Z) (inT outT : list Z)
    (N : Z),
  N = Z.of_nat (length inT) -> N = Z.of_nat (length outT) -> 1 <= N ->
  non_decreasing inT = true -> non_decreasing outT = true ->
  in_range 0 1023 inT = true -> in_range 0 16383 outT = true ->
  exists r : Z,
    interpolate v inT outT N = Some r
    /\ ((v <= at_ inT 0 /\ r = at_ outT 0)
        \/ (at_ inT (N - 1) <= v /\ r = at_ outT (N - 1))
        \/ (exists j : Z,
              0 <= j < N - 1
              /\ at_ inT j < v /\ v <= at_ inT (j + 1)
              /\ r = at_ outT j
                     + (v - at_ inT j) * (at_ outT (j + 1) - at_ outT j)
                       / (at_ inT (j + 1) - at_ inT j))).
Proof.
  intros v inT outT N Hin Hout HN Sin Sout Rin Rout.
  destruct (interpolate_cases v inT outT N HN)
    as [[H0 E] | [[H0 [H1 E]] | [j [Hj [Hlo [Hhi [_ E]]]]]]].
  - eexists. split; [exact E |]. left. auto.
  - eexists. split; [exact E |]. right. left. auto.
  - pose proof (in_range_at _ _ inT j Rin ltac:(lia)) as Ix0.
    pose proof (in_range_at _ _ inT (j + 1) Rin ltac:(lia)) as Ix1.
    pose proof (in_range_at _ _ outT j Rout ltac:(lia)) as Iy0.
    pose proof (in_range_at _ _ outT (j + 1) Rout ltac:(lia)) as Iy1.
    assert (Hy : at_ outT j <= at_ outT (j + 1))
      by (apply non_decreasing_at; [exact Sout | lia ..]).
    eexists. split.
    + rewrite E. apply interpolate_segment_exact; lia.
    + right. right. exists j. repeat split; try assumption; lia.
Qed.

Lemma interpolate_integer_formula_witness :
  (LUT.tableSize = Z.of_nat (length LUT.throttlePoints)
   /\ LUT.tableSize = Z.of_nat (length LUT.frequencyPoints)
   /\ 1 <= LUT.tableSize
   /\ non_decreasing LUT.throttlePoints = true
   /\ non_decreasing LUT.frequencyPoints = true
   /\ in_range 0 1023 LUT.throttlePoints = true
   /\ in_range 0 16383 LUT.frequencyPoints = true)
  /\ exists r : Z,
       interpolate 600 LUT.throttlePoints LUT.frequencyPoints LUT.tableSize
       = Some r.
Proof.
  assert (H2 : LUT.tableSize = Z.of_nat (length LUT.throttlePoints))
    by reflexivity.
  assert (H3 : LUT.tableSize = Z.of_nat (length LUT.frequencyPoints))
    by reflexivity.
  assert (H4 : 1 <= LUT.tableSize) by (vm_compute; discriminate).
  assert (H5 : non_decreasing LUT.throttlePoints = true) by reflexivity.
  assert (H6 : non_decreasing LUT.frequencyPoints = true) by reflexivity.
  assert (H7 : in_range 0 1023 LUT.throttlePoints = true) by reflexivity.
  assert (H8 : in_range 0 16383 LUT.frequencyPoints = true) by reflexivity.
  split; [repeat split; assumption |].
  destruct (interpolate_integer_formula 600 _ _ _ H2 H3 H4 H5 H6 H7 H8)
    as [r [E _]].
  exists r. exact E.
Defined.

(** X2. On a table whose inputs increase strictly within 0..1023 and whose
    outputs lie within 0..16383 (in any order), every knot is reproduced
    exactly: the input of entry [k] is mapped to the output of entry [k]. *)
Theorem interpolate_knots_exact : forall (k : Z) (inT outT : list Z) (N : Z),
  N = Z.of_nat (length inT) -> N = Z.of_nat (length outT) ->
  increasing inT = true ->
  in_range 0 1023 inT = true -> in_range 0 16383 outT = true ->
  0 <= k < N ->
  interpolate (at_ inT k) inT outT N = Some (at_ outT k).
Proof.
  intros k inT outT N Hin Hout Sin Rin Rout Hk.
  assert (HN : 1 <= N) by lia.
  destruct (interpolate_cases (at_ inT k) inT outT N HN)
    as [[H0 E] | [[H0 [H1 E]] | [j [Hj [Hlo [Hhi [_ E]]]]]]].
  - destruct (Z.eq_dec k 0) as [-> | Hk0]; [exact E |].
    assert (at_ inT 0 < at_ inT k)
      by (apply increasing_at; [exact Sin | lia ..]).
    lia.
  - destruct (Z.eq_dec k (N - 1)) as [-> | Hk1]; [exact E |].
    assert (at_ inT k < at_ inT (N - 1))
      by (apply increasing_at; [exact Sin | lia ..]).
    lia.
  - assert (Hjk : j + 1 = k).
    { destruct (Z.lt_trichotomy (j + 1) k) as [Hc | [Hc | Hc]].
      - assert (at_ inT (j + 1) < at_ inT k)
          by (apply increasing_at; [exact Sin | lia ..]).
        lia.
      - exact Hc.
      - destruct (Z.eq_dec j k) as [-> | Hne]; [lia |].
        assert (at_ inT k < at_ inT j)
          by (apply increasing_at; [exact Sin | lia ..]).
        lia. }
    subst k. rewrite E.
    pose proof (in_range_at _ _ inT j Rin ltac:(lia)) as Ix0.
    pose proof (in_range_at _ _ inT (j + 1) Rin ltac:(lia)) as Ix1.
    pose proof (in_range_at _ _ outT j Rout ltac:(lia)) as Iy0.
    pose proof (in_range_at _ _ outT (j + 1) Rout ltac:(lia)) as Iy1.
    apply interpolate_segment_knot; lia.
Qed.

Lemma interpolate_knots_exact_witness :
  (LUT.tableSize = Z.of_nat (length LUT.throttlePoints)
   /\ LUT.tableSize = Z.of_nat (length LUT.frequencyPoints)
   /\ increasing LUT.throttlePoints = true
   /\ in_range 0 1023 LUT.throttlePoints = true
   /\ in_range 0 16383 LUT.frequencyPoints = true
   /\ 0 <= 3 < LUT.tableSize)
  /\ interpolate 700 LUT.throttlePoints LUT.frequencyPoints LUT.tableSize
     = Some 22.
Proof.
  assert (H2 : LUT.tableSize = Z.of_nat (length LUT.throttlePoints))
    by reflexivity.
  assert (H3 : LUT.tableSize = Z.of_nat (length LUT.frequencyPoints))
    by reflexivity.
  assert (H5 : increasing LUT.throttlePoints = true) by reflexivity.
  assert (H7 : in_range 0 1023 LUT.throttlePoints = true) by reflexivity.
  assert (H8 : in_range 0 16383 LUT.frequencyPoints = true) by reflexivity.
  assert (H9 : 0 <= 3 < LUT.tableSize) by (vm_compute; split; congruence).
  split; [repeat split; try assumption; apply H9 |].
  exact (interpolate_knots_exact 3 _ _ _ H2 H3 H5 H7 H8 H9).
Defined.

(** X3. On a sorted table of 16-bit inputs and non-negative 16-bit outputs,
    a sample strictly inside the table is mapped to a value between the
    outputs of the two knots around it. *)
Theorem interpolate_between_knots : forall (v j : Z) (inT outT : list Z)
    (N : Z),
  N = Z.of_nat (length inT) -> N = Z.of_nat (length outT) -> 1 <= N ->
  non_decreasing inT = true -> non_decreasing outT = true ->
  in_range INT_MIN INT_MAX inT = true -> in_range 0 INT_MAX outT = true ->
  0 <= j < N - 1 ->
  at_ inT j < v -> v <= at_ inT (j + 1) -> v < at_ inT (N - 1) ->
  exists r : Z,
    interpolate v inT outT N = Some r
    /\ at_ outT j <= r <= at_ outT (j + 1).
Proof.
  intros v j inT outT N Hin Hout HN Sin Sout Rin Rout Hj Hlo Hhi Hlast.
  destruct (interpolate_bounded v inT outT N Hin Hout HN Sin Sout Rin Rout)
    as [r [E [_ S]]].
  exists r. split; [exact E |]. apply S; assumption.
Qed.

Lemma interpolate_between_knots_witness :
  (LUT.tableSize = Z.of_nat (length LUT.throttlePoints)
   /\ LUT.tableSize = Z.of_nat (length LUT.frequencyPoints)
   /\ 1 <= LUT.tableSize
   /\ non_decreasing LUT.throttlePoints = true
   /\ non_decreasing LUT.frequencyPoints = true
   /\ in_range INT_MIN INT_MAX LUT.throttlePoints = true
   /\ in_range 0 INT_MAX LUT.frequencyPoints = true
   /\ 0 <= 2 < LUT.tableSize - 1
   /\ at_ LUT.throttlePoints 2 < 600
   /\ 600 <= at_ LUT.throttlePoints (2 + 1)
   /\ 600 < at_ LUT.throttlePoints (LUT.tableSize - 1))
  /\ exists r : Z,
       interpolate 600 LUT.throttlePoints LUT.frequencyPoints LUT.tableSize
       = Some r
       /\ at_ LUT.frequencyPoints 2 <= r <= at_ LUT.frequencyPoints (2 + 1).
Proof.
  assert (H2 : LUT.tableSize = Z.of_nat (length LUT.throttlePoints))
    by reflexivity.
  assert (H3 : LUT.tableSize = Z.of_nat (length LUT.frequencyPoints))
    by reflexivity.
  assert (H4 : 1 <= LUT.tableSize) by (vm_compute; discriminate).
  assert (H5 : non_decreasing LUT.throttlePoints = true) by reflexivity.
  assert (H6 : non_decreasing LUT.frequencyPoints = true) by reflexivity.
  assert (H7 : in_range INT_MIN INT_MAX LUT.throttlePoints = true)
    by reflexivity.
  assert (H8 : in_range 0 INT_MAX LUT.frequencyPoints = true) by reflexivity.
  assert (H9 : 0 <= 2 < LUT.tableSize - 1) by (vm_compute; split; congruence).
  assert (H10 : at_ LUT.throttlePoints 2 < 600) by reflexivity.
  assert (H11 : 600 <= at_ LUT.throttlePoints (2 + 1))
    by (vm_compute; discriminate).
  assert (H12 : 600 < at_ LUT.throttlePoints (LUT.tableSize - 1))
    by reflexivity.
  split; [repeat split; try assumption; apply H9 |].
  exact (interpolate_between_knots 600 2 _ _ _ H2 H3 H4 H5 H6 H7 H8 H9
           H10 H11 H12).
Defined.

(** ** The fixed-calibration mapping *)

(** X4. In the active branch of the fixed-calibration [loop] the frequency
    always lies between [MIN_FREQUENCY] and [MAX_FREQUENCY]; up to
    [THROTTLE_MAX] it rises by one hertz per 30 ADC counts, above it stays at
    the maximum; so the period is between 40000 and 200000 microseconds and
    the division by the frequency is always defined. *)
Theorem Fixed_frequency_range : forall adc : Z,
  Fixed.THROTTLE_MIN < adc ->
  let f := Fixed.frequency_of adc in
  Fixed.MIN_FREQUENCY <= f <= Fixed.MAX_FREQUENCY
  /\ (adc <= Fixed.THROTTLE_MAX -> f = 5 + (adc - 220) / 30)
  /\ (Fixed.THROTTLE_MAX <= adc -> f = Fixed.MAX_FREQUENCY)
  /\ fst (fst (Fixed.timings f)) = 1000000 / f
  /\ 40000 <= fst (fst (Fixed.timings f)) <= 200000.
Proof.
  intros adc Hadc f.
  unfold Fixed.THROTTLE_MIN, Fixed.THROTTLE_MAX, Fixed.MIN_FREQUENCY,
    Fixed.MAX_FREQUENCY in *.
  assert (Hmap : Arduino.map adc 220 820 5 25 = (adc - 220) / 30 + 5).
  { unfold Arduino.map. rewrite Z.quot_div_nonneg by lia.
    change (25 - 5) with 20. change (820 - 220) with (30 * 20).
    rewrite Z.div_mul_cancel_r by lia. reflexivity. }
  assert (Hq : 0 <= (adc - 220) / 30) by (apply Z.div_pos; lia).
  assert (Hf : f = Arduino.constrain ((adc - 220) / 30 + 5) 5 25).
  { unfold f, Fixed.frequency_of, Fixed.THROTTLE_MIN, Fixed.THROTTLE_MAX,
      Fixed.MIN_FREQUENCY, Fixed.MAX_FREQUENCY. rewrite Hmap. reflexivity. }
  assert (Hrange : 5 <= f <= 25).
  { rewrite Hf. unfold Arduino.constrain.
    destruct (Z.ltb_spec ((adc - 220) / 30 + 5) 5);
      destruct (Z.ltb_spec 25 ((adc - 220) / 30 + 5)); lia. }
  split; [exact Hrange |]. split; [| split; [| split]].
  - intros Hmax.
    assert ((adc - 220) / 30 <= 20) by (apply Z.div_le_upper_bound; lia).
    rewrite Hf. unfold Arduino.constrain.
    destruct (Z.ltb_spec ((adc - 220) / 30 + 5) 5);
      destruct (Z.ltb_spec 25 ((adc - 220) / 30 + 5)); lia.
  - intros Hmax.
    assert (20 <= (adc - 220) / 30) by (apply Z.div_le_lower_bound; lia).
    rewrite Hf. unfold Arduino.constrain.
    destruct (Z.ltb_spec ((adc - 220) / 30 + 5) 5);
      destruct (Z.ltb_spec 25 ((adc - 220) / 30 + 5)); lia.
  - rewrite Fixed_timings_eq, LUT_timings_eq by lia. reflexivity.
  - rewrite Fixed_timings_eq, LUT_timings_eq by lia. cbn [fst].
    split.
    + apply Z.div_le_lower_bound; lia.
    + apply Z.div_le_upper_bound; lia.
Qed.

Lemma Fixed_frequency_range_witness :
  Fixed.THROTTLE_MIN < 520
  /\ Fixed.MIN_FREQUENCY <= Fixed.frequency_of 520 <= Fixed.MAX_FREQUENCY
  /\ (520 <= Fixed.THROTTLE_MAX
      -> Fixed.frequency_of 520 = 5 + (520 - 220) / 30).
Proof.
  assert (H : Fixed.THROTTLE_MIN < 520) by reflexivity.
  split; [exact H |].
  destruct (Fixed_frequency_range 520 H) as [H1 [H2 _]].
  split; [exact H1 | exact H2].
Defined.

(** ** Hold durations *)

(** X5. For every positive frequency the high phase computed by
    [updatePASTimings] is the period divided by four, rounded down, so it
    never exceeds a quarter of the period and the low phase is at least three
    times as long.  Both phases are positive up to 250000 Hz; above 1 MHz the
    period and both phases are zero. *)
Theorem duty_cycle_quarter : forall (f : Z) (s : State),
  0 < f <= LONG_MAX ->
  let p := pas (updatePASTimings f s) in
  let total := 1000000 / f in
  (4 * highDurationMicros p <= total < 4 * highDurationMicros p + 4)
  /\ 3 * highDurationMicros p <= lowDurationMicros p
  /\ (f <= 250000 -> 0 < highDurationMicros p)
  /\ (f <= 1000000 -> 0 < lowDurationMicros p)
  /\ (1000000 < f -> highDurationMicros p = 0 /\ lowDurationMicros p = 0).
Proof.
  intros f s Hf p total. subst p.
  rewrite (updatePASTimings_active f s Hf).
  cbn [highDurationMicros lowDurationMicros]. fold total.
  assert (Hq : total * 25 / 100 = total / 4).
  { change 100 with (4 * 25). rewrite Z.div_mul_cancel_r by lia. reflexivity. }
  rewrite Hq.
  pose proof (period_range f (proj1 Hf)) as Hp. fold total in Hp.
  pose proof (Z.mul_div_le total 4 ltac:(lia)) as D1.
  pose proof (Z.mul_succ_div_gt total 4 ltac:(lia)) as D2.
  split; [lia |]. split; [lia |]. split; [| split].
  - intros H250.
    assert (4 <= total) by (apply Z.div_le_lower_bound; lia).
    assert (1 <= total / 4) by (apply Z.div_le_lower_bound; lia).
    lia.
  - intros H1M.
    assert (1 <= total) by (apply Z.div_le_lower_bound; lia).
    lia.
  - intros H1M.
    assert (total = 0) by (apply Z.div_small; lia).
    lia.
Qed.

Lemma duty_cycle_quarter_witness :
  0 < 15 <= LONG_MAX
  /\ (let p := pas (updatePASTimings 15 setup) in
      4 * highDurationMicros p <= 1000000 / 15 < 4 * highDurationMicros p + 4).
Proof.
  assert (H : 0 < 15 <= LONG_MAX) by (unfold LONG_MAX; lia).
  split; [exact H |].
  exact (proj1 (duty_cycle_quarter 15 setup H)).
Defined.

(** ** The buzzer's timing *)

(** X7. For a base frequency [f] between 1 and 42949672 (where [f * 50] is
    a [long]) the buzzer's half period is [10000 / f] microseconds; it is
    zero, which switches the buzzer off, exactly when [f] exceeds 10000.
    For [f <= 0] the half period is zero as well. *)
Theorem buzz_half_period : forall (f : Z) (s : State),
  f <= 42949672 ->
  let b := buzz (updateBuzzTimings f s) in
  (0 < f -> periodMicros b = 10000 / f)
  /\ (periodMicros b = 0 <-> f <= 0 \/ 10000 < f)
  /\ buzzOutputHigh b = buzzOutputHigh (buzz s)
  /\ buzzLastToggleMicros b = buzzLastToggleMicros (buzz s).
Proof.
  intros f s Hmax b. subst b. unfold updateBuzzTimings, AUDIO_MULTIPLIER.
  destruct (Z.ltb_spec 0 f) as [Hpos | Hnon].
  - cbn [set_buzz buzz periodMicros buzzOutputHigh buzzLastToggleMicros].
    assert (Hl : to_long (f * 50) = f * 50).
    { unfold to_long. rewrite ULONG_MODULUS_eq.
      rewrite Z.mod_small by (change (2 ^ 31) with 2147483648; lia). lia. }
    rewrite Hl, (to_ulong_small (f * 50)) by (rewrite ULONG_MODULUS_eq; lia).
    assert (Hper : 1000000 / (f * 50) / 2 = 10000 / f).
    { rewrite Z.div_div by lia.
      replace (f * 50 * 2) with (f * 100) by lia.
      change 1000000 with (10000 * 100).
      rewrite Z.div_mul_cancel_r by lia. reflexivity. }
    rewrite Hper. split; [auto |]. split; [| split; reflexivity].
    split.
    + intros Hz. right.
      destruct (Z.le_gt_cases f 10000) as [Hle | Hgt]; [| lia].
      assert (1 <= 10000 / f) by (apply Z.div_le_lower_bound; lia). lia.
    + intros [H | H]; [lia |]. apply Z.div_small. lia.
  - cbn [set_buzz buzz periodMicros buzzOutputHigh buzzLastToggleMicros].
    split; [lia |]. split; [| split; reflexivity].
    split; [left; exact Hnon | reflexivity].
Qed.

Lemma buzz_half_period_witness :
  25 <= 42949672
  /\ periodMicros (buzz (updateBuzzTimings 25 setup)) = 10000 / 25.
Proof.
  assert (H : 25 <= 42949672) by lia.
  split; [exact H |].
  apply (proj1 (buzz_half_period 25 setup H)). reflexivity.
Defined.

(** ** What each step of the v3 [loop] leaves alone *)

Lemma updatePASSignal_frame : forall (now : Z) (s : State),
  let s' := updatePASSignal now s in
  buzz s' = buzz s
  /\ throttleValue s' = throttleValue s
  /\ lastSerialOutput s' = lastSerialOutput s
  /\ currentFrequency (pas s') = currentFrequency (pas s)
  /\ highDurationMicros (pas s') = highDurationMicros (pas s)
  /\ lowDurationMicros (pas s') = lowDurationMicros (pas s)
  /\ pin_level BUZZ_PIN (out s') = pin_level BUZZ_PIN (out s)
  /\ serial_reports (out s') = serial_reports (out s).
Proof.
  intros now s. unfold updatePASSignal.
  destruct (currentFrequency (pas s) <=? 0); [repeat split |].
  destruct (outputHigh (pas s)); destruct (_ <=? _); repeat split.
Qed.

Lemma updateBuzzSignal_frame : forall (now : Z) (s : State),
  let s' := updateBuzzSignal now s in
  pas s' = pas s
  /\ throttleValue s' = throttleValue s
  /\ lastSerialOutput s' = lastSerialOutput s
  /\ periodMicros (buzz s') = periodMicros (buzz s)
  /\ pin_writes PAS_PIN (out s') = pin_writes PAS_PIN (out s)
  /\ serial_reports (out s') = serial_reports (out s).
Proof.
  intros now s. unfold updateBuzzSignal.
  destruct (negb DEBUG_MODE || (periodMicros (buzz s) =? 0));
    [repeat split |].
  destruct (_ <=? _); repeat split.
Qed.

Lemma updateSerialOutput_frame : forall (now : Z) (s : State),
  let s' := updateSerialOutput now s in
  pas s' = pas s
  /\ buzz s' = buzz s
  /\ throttleValue s' = throttleValue s
  /\ (forall pin : Z, pin_writes pin (out s') = pin_writes pin (out s))
  /\ (forall pin : Z, pin_level pin (out s') = pin_level pin (out s)).
Proof.
  intros now s. unfold updateSerialOutput.
  destruct (_ <=? _); repeat split.
Qed.

Lemma updatePASSignal_pas_writes : forall (now : Z) (s : State),
  let s' := updatePASSignal now s in
  (out s' = out s /\ pas s' = pas s)
  \/ (exists level : bool,
        pin_writes PAS_PIN (out s')
        = level :: pin_writes PAS_PIN (out s)
        /\ outputHigh (pas s') = level).
Proof.
  intros now s. unfold updatePASSignal.
  destruct (currentFrequency (pas s) <=? 0).
  - right. exists LOW. split; reflexivity.
  - destruct (outputHigh (pas s)); destruct (_ <=? _).
    + right. exists LOW. split; reflexivity.
    + left. split; reflexivity.
    + right. exists HIGH. split; reflexivity.
    + left. split; reflexivity.
Qed.

(** The state after the timing functions of [processThrottleInput]. *)
Lemma timings_state : forall (f adc : Z) (s : State),
  let s1 := updateBuzzTimings f
              (updatePASTimings f
                 (mkState (pas s) (buzz s) adc (lastSerialOutput s) (out s))) in
  throttleValue s1 = adc
  /\ lastSerialOutput s1 = lastSerialOutput s
  /\ out s1 = out s
  /\ outputHigh (pas s1) = outputHigh (pas s)
  /\ lastToggleMicros (pas s1) = lastToggleMicros (pas s)
  /\ currentFrequency (pas s1) = f
  /\ buzzOutputHigh (buzz s1) = buzzOutputHigh (buzz s)
  /\ buzzLastToggleMicros (buzz s1) = buzzLastToggleMicros (buzz s)
  /\ (f <= 0 -> periodMicros (buzz s1) = 0).
Proof.
  intros f adc s. unfold updateBuzzTimings, updatePASTimings.
  destruct (Z.ltb_spec 0 f); repeat split; try reflexivity; lia.
Qed.

(** A pass of [loop], step by step. *)
Lemma loop_steps : forall (now adc : Z) (s s' : State),
  loop now adc s = Some s' ->
  exists f : Z,
    target_frequency adc = Some f
    /\ s' = updateSerialOutput now
              (updateBuzzSignal now
                 (updatePASSignal now
                    (updateBuzzTimings f
                       (updatePASTimings f
                          (mkState (pas s) (buzz s) adc (lastSerialOutput s)
                             (out s)))))).
Proof.
  intros now adc s s' H. unfold loop in H.
  rewrite processThrottleInput_target in H.
  destruct (target_frequency adc) as [f |]; [| discriminate].
  injection H as <-. exists f. split; reflexivity.
Qed.

Lemma target_frequency_total : forall adc : Z,
  is_int adc -> exists f : Z, target_frequency adc = Some f.
Proof.
  intros adc Hadc.
  destruct (processThrottleInput_total adc setup Hadc) as [s1 H].
  rewrite processThrottleInput_target in H.
  destruct (target_frequency adc) as [f |]; [eauto | discriminate].
Qed.

Lemma loop_total : forall (now adc : Z) (s : State),
  is_int adc -> exists s' : State, loop now adc s = Some s'.
Proof.
  intros now adc s Hadc. unfold loop.
  destruct (processThrottleInput_total adc s Hadc) as [s1 H].
  rewrite H. eauto.
Qed.

(** ** The configured curve *)

Lemma configured_table_ok :
  tableSize = Z.of_nat (length throttlePoints)
  /\ tableSize = Z.of_nat (length frequencyPoints)
  /\ 1 <= tableSize
  /\ non_decreasing throttlePoints = true
  /\ non_decreasing frequencyPoints = true
  /\ in_range INT_MIN INT_MAX throttlePoints = true
  /\ in_range 0 INT_MAX frequencyPoints = true.
Proof. repeat split; try reflexivity. vm_compute. discriminate. Qed.

Lemma configured_monotone : forall v1 v2 : Z,
  v1 <= v2 ->
  exists r1 r2 : Z,
    interpolate v1 throttlePoints frequencyPoints tableSize = Some r1
    /\ interpolate v2 throttlePoints frequencyPoints tableSize = Some r2
    /\ r1 <= r2.
Proof.
  intros v1 v2 H.
  destruct configured_table_ok as [H1 [H2 [H3 [H4 [H5 [H6 H7]]]]]].
  apply interpolate_monotone; assumption.
Qed.

Lemma target_frequency_range : forall adc : Z,
  is_int adc ->
  exists f : Z, target_frequency adc = Some f /\ 0 <= f <= 25.
Proof.
  intros adc Hadc. unfold target_frequency.
  destruct (at_ throttlePoints 0 <? adc).
  - destruct configured_table_ok as [H1 [H2 [H3 [H4 [H5 [H6 H7]]]]]].
    destruct (interpolate_bounded adc _ _ _ H1 H2 H3 H4 H5 H6 H7)
      as [f [E [B _]]].
    change (at_ frequencyPoints 0) with 0 in B.
    change (at_ frequencyPoints (tableSize - 1)) with 25 in B.
    exists f. split; assumption.
  - exists 0. split; [reflexivity | lia].
Qed.

(** X6. With the configured table every sample gets a frequency between 0
    and 25 Hz.  The frequency is positive exactly from the sample 237 on, so
    the channel stays forced off up to 236, beyond the dead zone that ends at
    220; it reaches 25 Hz exactly from the sample 820 on. *)
Theorem configured_curve_shape : forall adc : Z,
  is_int adc ->
  exists f : Z,
    target_frequency adc = Some f
    /\ 0 <= f <= 25
    /\ (0 < f <-> 237 <= adc)
    /\ (f = 25 <-> 820 <= adc).
Proof.
  intros adc Hadc. unfold target_frequency.
  destruct (Z.ltb_spec (at_ throttlePoints 0) adc) as [Hact | Hdead].
  - change (at_ throttlePoints 0) with 220 in Hact.
    destruct configured_table_ok as [H1 [H2 [H3 [H4 [H5 [H6 H7]]]]]].
    destruct (interpolate_bounded adc _ _ _ H1 H2 H3 H4 H5 H6 H7)
      as [f [E [B _]]].
    change (at_ frequencyPoints 0) with 0 in B.
    change (at_ frequencyPoints (tableSize - 1)) with 25 in B.
    exists f. split; [exact E |]. split; [exact B |].
    assert (E236 : interpolate 236 throttlePoints frequencyPoints tableSize
                   = Some 0) by (vm_compute; reflexivity).
    assert (E237 : interpolate 237 throttlePoints frequencyPoints tableSize
                   = Some 1) by (vm_compute; reflexivity).
    assert (E819 : interpolate 819 throttlePoints frequencyPoints tableSize
                   = Some 24) by (vm_compute; reflexivity).
    assert (E820 : interpolate 820 throttlePoints frequencyPoints tableSize
                   = Some 25) by (vm_compute; reflexivity).
    split; split; intros H.
    + destruct (Z.le_gt_cases adc 236) as [Hle | Hgt]; [| lia].
      destruct (configured_monotone adc 236 Hle) as [r1 [r2 [A1 [A2 A3]]]].
      rewrite E in A1. rewrite E236 in A2.
      injection A1 as <-. injection A2 as <-. lia.
    + destruct (configured_monotone 237 adc H) as [r1 [r2 [A1 [A2 A3]]]].
      rewrite E in A2. rewrite E237 in A1.
      injection A1 as <-. injection A2 as <-. lia.
    + destruct (Z.le_gt_cases adc 819) as [Hle | Hgt]; [| lia].
      destruct (configured_monotone adc 819 Hle) as [r1 [r2 [A1 [A2 A3]]]].
      rewrite E in A1. rewrite E819 in A2.
      injection A1 as <-. injection A2 as <-. lia.
    + destruct (configured_monotone 820 adc H) as [r1 [r2 [A1 [A2 A3]]]].
      rewrite E in A2. rewrite E820 in A1.
      injection A1 as <-. injection A2 as <-. lia.
  - change (at_ throttlePoints 0) with 220 in Hdead.
    exists 0. split; [reflexivity |]. split; [lia |]. split; split; lia.
Qed.

Lemma configured_curve_shape_witness :
  is_int 236
  /\ exists f : Z,
       target_frequency 236 = Some f
       /\ 0 <= f <= 25
       /\ (0 < f <-> 237 <= 236)
       /\ (f = 25 <-> 820 <= 236).
Proof.
  assert (H : is_int 236) by (unfold is_int, INT_MIN, INT_MAX; lia).
  split; [exact H |].
  exact (configured_curve_shape 236 H).
Defined.

(** ** The buzzer channel *)

Lemma updateBuzzSignal_flag_pin : forall (now : Z) (s : State),
  buzzOutputHigh (buzz s) = pin_level BUZZ_PIN (out s) ->
  let s' := updateBuzzSignal now s in
  buzzOutputHigh (buzz s') = pin_level BUZZ_PIN (out s')
  /\ (periodMicros (buzz s) = 0 -> buzzOutputHigh (buzz s') = false).
Proof.
  intros now s Hinv. unfold updateBuzzSignal. cbn [DEBUG_MODE negb orb].
  destruct (Z.eqb_spec (periodMicros (buzz s)) 0) as [Hz | Hnz].
  - split; reflexivity.
  - destruct (_ <=? _); (split; [first [reflexivity | exact Hinv] | lia]).
Qed.

Lemma loop_buzz_flag_pin : forall (now adc : Z) (s s' : State),
  loop now adc s = Some s' ->
  buzzOutputHigh (buzz s) = pin_level BUZZ_PIN (out s) ->
  buzzOutputHigh (buzz s') = pin_level BUZZ_PIN (out s')
  /\ (currentFrequency (pas s') <= 0 -> buzzOutputHigh (buzz s') = false).
Proof.
  intros now adc s s' H Hinv.
  destruct (loop_steps now adc s s' H) as [f [Hf ->]].
  set (s1 := updateBuzzTimings f _).
  destruct (timings_state f adc s) as [_ [_ [T3 [_ [_ [T6 [T7 [_ T9]]]]]]]].
  fold s1 in T3, T6, T7, T9.
  destruct (updatePASSignal_frame now s1) as [P1 [_ [_ [P4 [_ [_ [P7 _]]]]]]].
  set (s2 := updatePASSignal now s1) in *.
  assert (I2 : buzzOutputHigh (buzz s2) = pin_level BUZZ_PIN (out s2)).
  { rewrite P1, P7, T7, T3. exact Hinv. }
  destruct (updateBuzzSignal_flag_pin now s2 I2) as [B1 B2].
  destruct (updateBuzzSignal_frame now s2) as [F1 _].
  set (s3 := updateBuzzSignal now s2) in *.
  destruct (updateSerialOutput_frame now s3) as [S1 [S2 [_ [_ S5]]]].
  rewrite S1, S2, S5. split; [exact B1 |].
  rewrite F1, P4, T6. intros Hoff. apply B2. rewrite P1. apply T9. exact Hoff.
Qed.

(** X8. In every run from [setup] the buzzer's level flag is the level of
    the buzzer pin, and whenever the PAS channel is forced off (frequency not
    positive) the buzzer pin is low. *)
Theorem buzz_flag_matches_pin : forall inputs : list (Z * Z),
  readings_ok inputs = true ->
  exists s : State,
    run inputs setup = Some s
    /\ buzzOutputHigh (buzz s) = pin_level BUZZ_PIN (out s)
    /\ (currentFrequency (pas s) <= 0 -> pin_level BUZZ_PIN (out s) = LOW).
Proof.
  intros inputs Hok.
  assert (G : forall (l : list (Z * Z)) (s0 : State),
            readings_ok l = true ->
            buzzOutputHigh (buzz s0) = pin_level BUZZ_PIN (out s0) ->
            (currentFrequency (pas s0) <= 0 ->
             buzzOutputHigh (buzz s0) = false) ->
            exists s : State,
              run l s0 = Some s
              /\ buzzOutputHigh (buzz s) = pin_level BUZZ_PIN (out s)
              /\ (currentFrequency (pas s) <= 0 ->
                  buzzOutputHigh (buzz s) = false)).
  { induction l as [| [now adc] rest IH]; intros s0 Hl I1 I2.
    - exists s0. repeat split; assumption.
    - cbn [readings_ok forallb snd] in Hl. apply andb_prop in Hl.
      destruct Hl as [Hadc Hrest]. apply is_intb_spec in Hadc.
      destruct (loop_total now adc s0 Hadc) as [s1 H1].
      cbn [run]. rewrite H1.
      destruct (loop_buzz_flag_pin now adc s0 s1 H1 I1) as [J1 J2].
      apply IH; assumption. }
  destruct (G inputs setup Hok eq_refl (fun _ => eq_refl)) as [s [R [I1 I2]]].
  exists s. split; [exact R |]. split; [exact I1 |].
  intros Hoff. rewrite <- I1. apply I2. exact Hoff.
Qed.

Lemma buzz_flag_matches_pin_witness :
  readings_ok [(100000, 900); (100250, 900); (100600, 100)] = true
  /\ exists s : State,
       run [(100000, 900); (100250, 900); (100600, 100)] setup = Some s
       /\ buzzOutputHigh (buzz s) = pin_level BUZZ_PIN (out s)
       /\ (currentFrequency (pas s) <= 0 -> pin_level BUZZ_PIN (out s) = LOW).
Proof.
  assert (H : readings_ok [(100000, 900); (100250, 900); (100600, 100)]
              = true) by reflexivity.
  split; [exact H |].
  exact (buzz_flag_matches_pin _ H).
Defined.

(** ** The serial report *)

Lemma loop_serial : forall (now adc : Z) (s s' : State),
  loop now adc s = Some s' ->
  exists f : Z,
    target_frequency adc = Some f
    /\ (SERIAL_INTERVAL <= ulong_sub now (lastSerialOutput s) ->
        serial_reports (out s')
        = (adc, f, to_long (f * AUDIO_MULTIPLIER)) :: serial_reports (out s)
        /\ lastSerialOutput s' = now)
    /\ (ulong_sub now (lastSerialOutput s) < SERIAL_INTERVAL ->
        serial_reports (out s') = serial_reports (out s)
        /\ lastSerialOutput s' = lastSerialOutput s).
Proof.
  intros now adc s s' H.
  destruct (loop_steps now adc s s' H) as [f [Hf ->]].
  exists f. split; [exact Hf |].
  set (s1 := updateBuzzTimings f _).
  destruct (timings_state f adc s) as [T1 [T2 [T3 [_ [_ [T6 _]]]]]].
  fold s1 in T1, T2, T3, T6.
  destruct (updatePASSignal_frame now s1) as [_ [P2 [P3 [P4 [_ [_ [_ P8]]]]]]].
  set (s2 := updatePASSignal now s1) in *.
  destruct (updateBuzzSignal_frame now s2) as [B1 [B2 [B3 [_ [_ B6]]]]].
  set (s3 := updateBuzzSignal now s2) in *.
  assert (A1 : throttleValue s3 = adc) by congruence.
  assert (A2 : lastSerialOutput s3 = lastSerialOutput s) by congruence.
  assert (A3 : currentFrequency (pas s3) = f) by (rewrite B1; congruence).
  assert (A4 : serial_reports (out s3) = serial_reports (out s))
    by congruence.
  unfold updateSerialOutput. rewrite A2.
  destruct (Z.leb_spec SERIAL_INTERVAL (ulong_sub now (lastSerialOutput s)))
    as [Hdue | Hnot].
  - split; intros Hc; [| lia].
    cbn [out lastSerialOutput serial_reports]. rewrite A1, A3, A4.
    split; reflexivity.
  - split; intros Hc; [lia |]. split; assumption.
Qed.

(** X9. A pass that finds at least [SERIAL_INTERVAL] microseconds elapsed
    since the last report emits exactly one report, with the sample of that
    pass, its frequency and that frequency times [AUDIO_MULTIPLIER]; the
    passes that follow within less than [SERIAL_INTERVAL] microseconds of it
    (measured on the wrapping clock) emit none. *)
Theorem serial_rate_limit : forall (now adc : Z) (rest : list (Z * Z))
    (s : State),
  is_int adc -> readings_ok rest = true ->
  SERIAL_INTERVAL <= ulong_sub now (lastSerialOutput s) ->
  forallb (fun r => ulong_sub (fst r) now <? SERIAL_INTERVAL) rest = true ->
  exists (f : Z) (s1 s2 : State),
    target_frequency adc = Some f
    /\ loop now adc s = Some s1
    /\ serial_reports (out s1)
       = (adc, f, f * AUDIO_MULTIPLIER) :: serial_reports (out s)
    /\ run rest s1 = Some s2
    /\ serial_reports (out s2) = serial_reports (out s1)
    /\ lastSerialOutput s2 = now.
Proof.
  intros now adc rest s Hadc Hok Hdue Hwin.
  destruct (loop_total now adc s Hadc) as [s1 H1].
  destruct (loop_serial now adc s s1 H1) as [f [Hf [Hemit _]]].
  destruct (Hemit Hdue) as [E1 E2].
  assert (Hlong : to_long (f * AUDIO_MULTIPLIER) = f * AUDIO_MULTIPLIER).
  { destruct (target_frequency_range adc Hadc) as [f' [Hf' Hrange]].
    rewrite Hf in Hf'. injection Hf' as <-.
    unfold to_long, AUDIO_MULTIPLIER. rewrite ULONG_MODULUS_eq.
    rewrite Z.mod_small by (change (2 ^ 31) with 2147483648; lia). lia. }
  rewrite Hlong in E1.
  assert (G : forall (l : list (Z * Z)) (s0 : State),
            readings_ok l = true ->
            forallb (fun r => ulong_sub (fst r) now <? SERIAL_INTERVAL) l
            = true ->
            lastSerialOutput s0 = now ->
            exists s2 : State,
              run l s0 = Some s2
              /\ serial_reports (out s2) = serial_reports (out s0)
              /\ lastSerialOutput s2 = now).
  { induction l as [| [t a] l IH]; intros s0 Hl Hw Hlast.
    - exists s0. repeat split; assumption.
    - cbn [readings_ok forallb snd fst] in Hl, Hw.
      apply andb_prop in Hl. destruct Hl as [Ha Hl]. apply is_intb_spec in Ha.
      apply andb_prop in Hw. destruct Hw as [Ht Hw]. apply Z.ltb_lt in Ht.
      destruct (loop_total t a s0 Ha) as [s0' H0].
      destruct (loop_serial t a s0 s0' H0) as [g [_ [_ Hquiet]]].
      rewrite Hlast in Hquiet. destruct (Hquiet Ht) as [Q1 Q2].
      cbn [run]. rewrite H0.
      destruct (IH s0' Hl Hw Q2) as [s2 [R1 [R2 R3]]].
      exists s2. repeat split; try assumption. congruence. }
  destruct (G rest s1 Hok Hwin E2) as [s2 [R1 [R2 R3]]].
  exists f, s1, s2. repeat split; assumption.
Qed.

Lemma serial_rate_limit_witness :
  (is_int 900
   /\ readings_ok [(300100, 900); (549999, 600)] = true
   /\ SERIAL_INTERVAL <= ulong_sub 300000 (lastSerialOutput setup)
   /\ forallb (fun r => ulong_sub (fst r) 300000 <? SERIAL_INTERVAL)
        [(300100, 900); (549999, 600)] = true)
  /\ exists (f : Z) (s1 s2 : State),
       target_frequency 900 = Some f
       /\ loop 300000 900 setup = Some s1
       /\ serial_reports (out s1)
          = (900, f, f * AUDIO_MULTIPLIER) :: serial_reports (out setup)
       /\ run [(300100, 900); (549999, 600)] s1 = Some s2
       /\ serial_reports (out s2) = serial_reports (out s1)
       /\ lastSerialOutput s2 = 300000.
Proof.
  assert (H1 : is_int 900) by (unfold is_int, INT_MIN, INT_MAX; lia).
  assert (H2 : readings_ok [(300100, 900); (549999, 600)] = true)
    by reflexivity.
  assert (H3 : SERIAL_INTERVAL <= ulong_sub 300000 (lastSerialOutput setup))
    by (vm_compute; discriminate).
  assert (H4 : forallb (fun r => ulong_sub (fst r) 300000 <? SERIAL_INTERVAL)
                 [(300100, 900); (549999, 600)] = true) by reflexivity.
  split; [repeat split; try assumption; apply H1 |].
  exact (serial_rate_limit 300000 900 _ setup H1 H2 H3 H4).
Defined.

(** ** Edges of the PAS signal *)

Lemma updatePASSignal_edges : forall (now : Z) (s : State),
  let s' := updatePASSignal now s in
  let elapsed := ulong_sub now (lastToggleMicros (pas s)) in
  (outputHigh (pas s) = false -> outputHigh (pas s') = true ->
   0 < currentFrequency (pas s)
   /\ lastToggleMicros (pas s') = now
   /\ lowDurationMicros (pas s) <= elapsed)
  /\ (outputHigh (pas s) = true -> outputHigh (pas s') = false ->
      currentFrequency (pas s) <= 0
      \/ (lastToggleMicros (pas s') = now
          /\ highDurationMicros (pas s) <= elapsed))
  /\ (lastToggleMicros (pas s') = lastToggleMicros (pas s)
      \/ (lastToggleMicros (pas s') = now
          /\ outputHigh (pas s') = negb (outputHigh (pas s))
          /\ 0 < currentFrequency (pas s)))
  /\ (currentFrequency (pas s) <= 0 ->
      outputHigh (pas s') = false
      /\ lastToggleMicros (pas s') = lastToggleMicros (pas s)).
Proof.
  intros now s. unfold updatePASSignal.
  destruct (Z.leb_spec (currentFrequency (pas s)) 0) as [Hoff | Hon].
  - cbn [set_pas pas outputHigh lastToggleMicros]. split; [| split; [| split]].
    + intros _ H. discriminate H.
    + intros _ _. left. exact Hoff.
    + left. reflexivity.
    + intros _. split; reflexivity.
  - destruct (outputHigh (pas s)) eqn:Hflag.
    + destruct (Z.leb_spec (highDurationMicros (pas s))
                  (ulong_sub now (lastToggleMicros (pas s)))) as [Hd | Hd].
      * cbn [set_pas pas outputHigh lastToggleMicros].
        split; [| split; [| split]].
        -- intros H. discriminate H.
        -- intros _ _. right. split; [reflexivity | exact Hd].
        -- right. repeat split. exact Hon.
        -- intros Hoff. exfalso. lia.
      * rewrite Hflag. split; [| split; [| split]].
        -- intros H. discriminate H.
        -- intros _ H. discriminate H.
        -- left. reflexivity.
        -- intros Hoff. exfalso. lia.
    + destruct (Z.leb_spec (lowDurationMicros (pas s))
                  (ulong_sub now (lastToggleMicros (pas s)))) as [Hd | Hd].
      * cbn [set_pas pas outputHigh lastToggleMicros].
        split; [| split; [| split]].
        -- intros _ _. repeat split; assumption.
        -- intros H. discriminate H.
        -- right. repeat split. exact Hon.
        -- intros Hoff. exfalso. lia.
      * rewrite Hflag. split; [| split; [| split]].
        -- intros _ H. discriminate H.
        -- intros H. discriminate H.
        -- left. reflexivity.
        -- intros Hoff. exfalso. lia.
Qed.

(** X11. In a pass of the v3 [loop] the edges of the PAS level are gated by
    the channel's timer [lastToggleMicros].  The level rises only on an
    active channel, when the wrapping time since [lastToggleMicros] has
    reached the low duration of the new target frequency; it falls only
    when the channel is forced off or that time has reached the high
    duration; the timer changes only on a toggle of an active channel, and
    then to the current time; a forced-off pass drives the level low and
    leaves the timer as it was.  The timer therefore holds the time of the
    last toggle of an active channel, which after a forced-off pass is not
    the time of the last write to the pin. *)
Theorem loop_edges_gated_by_timer : forall (now adc : Z) (s s' : State),
  loop now adc s = Some s' ->
  let elapsed := ulong_sub now (lastToggleMicros (pas s)) in
  (outputHigh (pas s) = false -> outputHigh (pas s') = true ->
   0 < currentFrequency (pas s')
   /\ lastToggleMicros (pas s') = now
   /\ lowDurationMicros (pas s') <= elapsed)
  /\ (outputHigh (pas s) = true -> outputHigh (pas s') = false ->
      currentFrequency (pas s') <= 0
      \/ (lastToggleMicros (pas s') = now
          /\ highDurationMicros (pas s') <= elapsed))
  /\ (lastToggleMicros (pas s') = lastToggleMicros (pas s)
      \/ (lastToggleMicros (pas s') = now
          /\ outputHigh (pas s') = negb (outputHigh (pas s))
          /\ 0 < currentFrequency (pas s')))
  /\ (currentFrequency (pas s') <= 0 ->
      outputHigh (pas s') = false
      /\ lastToggleMicros (pas s') = lastToggleMicros (pas s)).
Proof.
  intros now adc s s' H elapsed. subst elapsed.
  destruct (loop_steps now adc s s' H) as [f [Hf ->]].
  set (s1 := updateBuzzTimings f _).
  destruct (timings_state f adc s) as [_ [_ [_ [T4 [T5 _]]]]].
  fold s1 in T4, T5.
  destruct (updatePASSignal_frame now s1) as [_ [_ [_ [P4 [P5 [P6 _]]]]]].
  pose proof (updatePASSignal_edges now s1) as E. cbv zeta in E.
  set (s2 := updatePASSignal now s1) in *.
  destruct (updateBuzzSignal_frame now s2) as [B1 _].
  set (s3 := updateBuzzSignal now s2) in *.
  destruct (updateSerialOutput_frame now s3) as [S1 _].
  rewrite S1, B1, P4, P5, P6. rewrite T4, T5 in E. exact E.
Qed.

Lemma loop_edges_gated_by_timer_witness :
  exists s' : State,
    loop 100000 900 setup = Some s'
    /\ outputHigh (pas setup) = false
    /\ outputHigh (pas s') = true
    /\ 0 < currentFrequency (pas s')
    /\ lastToggleMicros (pas s') = 100000
    /\ lowDurationMicros (pas s')
       <= ulong_sub 100000 (lastToggleMicros (pas setup)).
Proof.
  destruct (loop 100000 900 setup) as [s' |] eqn:H;
    [| vm_compute in H; discriminate H].
  exists s'. split; [reflexivity |].
  assert (Hup : outputHigh (pas s') = true).
  { vm_compute in H. injection H as <-. reflexivity. }
  destruct (loop_edges_gated_by_timer 100000 900 setup s' H) as [Hrise _].
  split; [reflexivity |]. split; [exact Hup |].
  apply Hrise; [reflexivity | exact Hup].
Defined.

(** The timer is not the age of the pin's level.  The level rises at
    750000; a forced-off pass at 990000 writes the pin low and keeps the
    timer; 120 microseconds later the throttle is back, the timer shows
    240120 microseconds, more than the low duration of 30000, and the pin
    is written high again. *)
Example forced_off_keeps_timer_run :
  option_map
    (fun s => (lastToggleMicros (pas s), pin_writes PAS_PIN (out s)))
    (run [(750000, 240); (990000, 100)] setup)
  = Some (750000, [LOW; HIGH; LOW])
  /\ option_map
       (fun s => (lastToggleMicros (pas s), lowDurationMicros (pas s),
                  pin_writes PAS_PIN (out s)))
       (run [(750000, 240); (990000, 100); (990120, 900)] setup)
     = Some (990120, 30000, [HIGH; LOW; HIGH; LOW]).
Proof. split; vm_compute; reflexivity. Qed.

(** ** The v3 sketch and the lookup-table sketch emit the same PAS signal *)

Lemma updatePASSignal_components : forall (now : Z) (s : State),
  let s' := updatePASSignal now s in
  let p := pas s in
  let due :=
    if outputHigh p
    then highDurationMicros p <=? ulong_sub now (lastToggleMicros p)
    else lowDurationMicros p <=? ulong_sub now (lastToggleMicros p) in
  (currentFrequency p <= 0 ->
   outputHigh (pas s') = LOW
   /\ lastToggleMicros (pas s') = lastToggleMicros p
   /\ pin_writes PAS_PIN (out s') = LOW :: pin_writes PAS_PIN (out s))
  /\ (0 < currentFrequency p ->
      outputHigh (pas s') = (if due then negb (outputHigh p) else outputHigh p)
      /\ lastToggleMicros (pas s') = (if due then now else lastToggleMicros p)
      /\ pin_writes PAS_PIN (out s')
         = (if due then [negb (outputHigh p)] else [])
           ++ pin_writes PAS_PIN (out s)).
Proof.
  intros now s. unfold updatePASSignal. cbv zeta.
  destruct (Z.leb_spec (currentFrequency (pas s)) 0) as [Hoff | Hon].
  - split; intros H; [| lia]. repeat split.
  - split; intros H; [lia |].
    destruct (outputHigh (pas s)) eqn:Hflag; destruct (_ <=? _);
      cbn [set_pas digitalWrite pas out outputHigh lastToggleMicros
           pin_writes negb app]; rewrite ?Hflag; repeat split.
Qed.

Lemma LUT_state_machine_components : forall (now high low : Z)
    (t : LUT.State),
  let t' := LUT.state_machine now high low t in
  let due :=
    if LUT.pasState t
    then high <=? ulong_sub now (LUT.previousMicros t)
    else low <=? ulong_sub now (LUT.previousMicros t) in
  LUT.pasState t' = (if due then negb (LUT.pasState t) else LUT.pasState t)
  /\ LUT.previousMicros t' = (if due then now else LUT.previousMicros t)
  /\ pin_writes LUT.PAS_PIN (LUT.out t')
     = (if due then [negb (LUT.pasState t)] else [])
       ++ pin_writes LUT.PAS_PIN (LUT.out t).
Proof.
  intros now high low t. unfold LUT.state_machine. cbv zeta.
  destruct (LUT.pasState t) eqn:Hflag; cbn [eqb HIGH LOW andb];
    destruct (_ <=? _);
    cbn [LUT.pasState LUT.previousMicros LUT.out pin_writes negb app];
    rewrite ?Hflag; repeat split.
Qed.

Lemma pas_after_timings : forall (f adc : Z) (s : State),
  0 < f <= LONG_MAX ->
  pas (updateBuzzTimings f
         (updatePASTimings f
            (mkState (pas s) (buzz s) adc (lastSerialOutput s) (out s))))
  = mkPAS (outputHigh (pas s)) (lastToggleMicros (pas s))
      (1000000 / f * 25 / 100) (1000000 / f - 1000000 / f * 25 / 100) f.
Proof.
  intros f adc s Hf.
  set (s0 := mkState (pas s) (buzz s) adc (lastSerialOutput s) (out s)).
  transitivity (pas (updatePASTimings f s0)).
  - unfold updateBuzzTimings. destruct (0 <? f); reflexivity.
  - rewrite (updatePASTimings_active f s0 Hf). reflexivity.
Qed.

(** One pass keeps the two sketches in step. *)
Lemma loops_in_step : forall (now adc : Z) (s : State) (t : LUT.State),
  is_int adc ->
  outputHigh (pas s) = LUT.pasState t ->
  lastToggleMicros (pas s) = LUT.previousMicros t ->
  pin_writes PAS_PIN (out s) = pin_writes LUT.PAS_PIN (LUT.out t) ->
  exists (s' : State) (t' : LUT.State),
    loop now adc s = Some s'
    /\ LUT.loop now adc t = Some t'
    /\ outputHigh (pas s') = LUT.pasState t'
    /\ lastToggleMicros (pas s') = LUT.previousMicros t'
    /\ pin_writes PAS_PIN (out s') = pin_writes LUT.PAS_PIN (LUT.out t').
Proof.
  intros now adc s t Hadc R1 R2 R3.
  destruct (loop_total now adc s Hadc) as [s' H].
  exists s'.
  destruct (loop_steps now adc s s' H) as [f [Hf ->]].
  destruct (target_frequency_range adc Hadc) as [f' [Hf' Hrange]].
  rewrite Hf in Hf'. injection Hf' as <-.
  set (s1 := updateBuzzTimings f _) in *.
  destruct (timings_state f adc s) as [_ [_ [T3 [T4 [T5 [T6 _]]]]]].
  fold s1 in T3, T4, T5, T6.
  destruct (updatePASSignal_components now s1) as [Coff Con].
  set (s2 := updatePASSignal now s1) in *.
  destruct (updateBuzzSignal_frame now s2) as [B1 [_ [_ [_ [B5 _]]]]].
  set (s3 := updateBuzzSignal now s2) in *.
  destruct (updateSerialOutput_frame now s3) as [S1 [_ [_ [S4 _]]]].
  rewrite S1, (S4 PAS_PIN), B1, B5.
  (* the lookup-table sketch *)
  unfold LUT.loop.
  cbn [LUT.throttleValue LUT.pasState LUT.previousMicros LUT.out].
  unfold target_frequency in Hf.
  change (at_ LUT.throttlePoints 0) with (at_ throttlePoints 0).
  change (interpolate adc LUT.throttlePoints LUT.frequencyPoints LUT.tableSize)
    with (interpolate adc throttlePoints frequencyPoints tableSize).
  set (t0 := LUT.mkState adc (LUT.pasState t) (LUT.previousMicros t)
               (LUT.out t)).
  assert (Hforce : f <= 0 ->
            outputHigh (pas s2) = LUT.pasState (LUT.force_low t0)
            /\ lastToggleMicros (pas s2) = LUT.previousMicros (LUT.force_low t0)
            /\ pin_writes PAS_PIN (out s2)
               = pin_writes LUT.PAS_PIN (LUT.out (LUT.force_low t0))).
  { intros Hoff. rewrite T6 in Coff. destruct (Coff Hoff) as [C1 [C2 C3]].
    rewrite C1, C2, C3, T5, T3, R2, R3. repeat split. }
  destruct (at_ throttlePoints 0 <? adc).
  - rewrite Hf.
    destruct (Z.ltb_spec 0 f) as [Hpos | Hnon].
    + rewrite (LUT_timings_eq f Hpos).
      eexists. split; [exact H |]. split; [reflexivity |].
      rewrite T6 in Con. destruct (Con Hpos) as [C1 [C2 C3]].
      destruct (LUT_state_machine_components now (1000000 / f * 25 / 100)
                  (1000000 / f - 1000000 / f * 25 / 100) t0) as [L1 [L2 L3]].
      rewrite C1, C2, C3, L1, L2, L3.
      unfold s1. rewrite (pas_after_timings f adc s)
        by (unfold LONG_MAX; lia).
      fold s1.
      cbn [outputHigh lastToggleMicros highDurationMicros lowDurationMicros
           t0 LUT.pasState LUT.previousMicros LUT.out].
      rewrite T3, R1, R2, R3. repeat split.
    + eexists. split; [exact H |]. split; [reflexivity |].
      apply Hforce. exact Hnon.
  - injection Hf as <-.
    eexists. split; [exact H |]. split; [reflexivity |].
    apply Hforce. lia.
Qed.

(** X10. On the same clock and throttle readings the v3 sketch and the
    lookup-table sketch emit the same PAS signal: after every run from
    [setup] they agree on the level, on the time of the last toggle and on
    the whole sequence of levels written to the PAS pin.  The buzzer and the
    serial report do not disturb the signal. *)
Theorem v3_and_LUT_emit_same_signal : forall inputs : list (Z * Z),
  readings_ok inputs = true ->
  exists (s : State) (t : LUT.State),
    run inputs setup = Some s
    /\ LUT.run inputs LUT.setup = Some t
    /\ outputHigh (pas s) = LUT.pasState t
    /\ lastToggleMicros (pas s) = LUT.previousMicros t
    /\ pin_writes PAS_PIN (out s) = pin_writes LUT.PAS_PIN (LUT.out t).
Proof.
  intros inputs Hok.
  assert (G : forall (l : list (Z * Z)) (s0 : State) (t0 : LUT.State),
            readings_ok l = true ->
            outputHigh (pas s0) = LUT.pasState t0 ->
            lastToggleMicros (pas s0) = LUT.previousMicros t0 ->
            pin_writes PAS_PIN (out s0) = pin_writes LUT.PAS_PIN (LUT.out t0) ->
            exists (s : State) (t : LUT.State),
              run l s0 = Some s
              /\ LUT.run l t0 = Some t
              /\ outputHigh (pas s) = LUT.pasState t
              /\ lastToggleMicros (pas s) = LUT.previousMicros t
              /\ pin_writes PAS_PIN (out s)
                 = pin_writes LUT.PAS_PIN (LUT.out t)).
  { induction l as [| [now adc] rest IH]; intros s0 t0 Hl R1 R2 R3.
    - exists s0, t0. repeat split; assumption.
    - cbn [readings_ok forallb snd] in Hl. apply andb_prop in Hl.
      destruct Hl as [Hadc Hrest]. apply is_intb_spec in Hadc.
      destruct (loops_in_step now adc s0 t0 Hadc R1 R2 R3)
        as [s1 [t1 [H1 [H2 [Q1 [Q2 Q3]]]]]].
      cbn [run LUT.run]. rewrite H1, H2.
      apply IH; assumption. }
  apply G; [exact Hok | reflexivity ..].
Qed.

Lemma v3_and_LUT_emit_same_signal_witness :
  readings_ok [(100000, 900); (110000, 900); (120000, 230); (160000, 600)]
  = true
  /\ exists (s : State) (t : LUT.State),
       run [(100000, 900); (110000, 900); (120000, 230); (160000, 600)] setup
       = Some s
       /\ LUT.run [(100000, 900); (110000, 900); (120000, 230); (160000, 600)]
            LUT.setup = Some t
       /\ outputHigh (pas s) = LUT.pasState t
       /\ lastToggleMicros (pas s) = LUT.previousMicros t
       /\ pin_writes PAS_PIN (out s) = pin_writes LUT.PAS_PIN (LUT.out t).
Proof.
  assert (H : readings_ok
                [(100000, 900); (110000, 900); (120000, 230); (160000, 600)]
              = true) by reflexivity.
  split; [exact H |].
  exact (v3_and_LUT_emit_same_signal _ H).
Defined.

(** ** Holding a phase *)

Lemma loop_hold : forall (now adc f : Z) (s : State),
  target_frequency adc = Some f ->
  0 < f <= LONG_MAX ->
  ulong_sub now (lastToggleMicros (pas s))
  < (if outputHigh (pas s)
     then 1000000 / f * 25 / 100
     else 1000000 / f - 1000000 / f * 25 / 100) ->
  exists s' : State,
    loop now adc s = Some s'
    /\ outputHigh (pas s') = outputHigh (pas s)
    /\ lastToggleMicros (pas s') = lastToggleMicros (pas s)
    /\ pin_writes PAS_PIN (out s') = pin_writes PAS_PIN (out s).
Proof.
  intros now adc f s Hf Hpos Hearly.
  assert (H : exists s', loop now adc s = Some s').
  { unfold loop. rewrite processThrottleInput_target, Hf. eauto. }
  destruct H as [s' H]. exists s'. split; [exact H |].
  destruct (loop_steps now adc s s' H) as [f' [Hf' ->]].
  rewrite Hf in Hf'. injection Hf' as <-.
  set (s1 := updateBuzzTimings f _) in *.
  destruct (timings_state f adc s) as [_ [_ [T3 [_ [_ [T6 _]]]]]].
  fold s1 in T3, T6.
  pose proof (pas_after_timings f adc s Hpos) as Hp. fold s1 in Hp.
  destruct (updatePASSignal_components now s1) as [_ Con].
  rewrite T6 in Con. destruct (Con (proj1 Hpos)) as [C1 [C2 C3]].
  set (s2 := updatePASSignal now s1) in *.
  destruct (updateBuzzSignal_frame now s2) as [B1 [_ [_ [_ [B5 _]]]]].
  set (s3 := updateBuzzSignal now s2) in *.
  destruct (updateSerialOutput_frame now s3) as [S1 [_ [_ [S4 _]]]].
  rewrite S1, (S4 PAS_PIN), B1, B5, C1, C2, C3, Hp.
  cbn [outputHigh lastToggleMicros highDurationMicros lowDurationMicros].
  assert (Hdue : (if outputHigh (pas s)
                  then 1000000 / f * 25 / 100
                       <=? ulong_sub now (lastToggleMicros (pas s))
                  else 1000000 / f - 1000000 / f * 25 / 100
                       <=? ulong_sub now (lastToggleMicros (pas s)))
                 = false).
  { destruct (outputHigh (pas s)); apply Z.leb_gt; exact Hearly. }
  rewrite Hdue, T3. repeat split.
Qed.

(** X12. While the throttle sample stays at one active value, every pass
    whose clock reading is less than the hold duration of the present level
    after the last toggle leaves the level, the timer and the PAS pin alone:
    the pin is not written again, however many such passes occur. *)
Theorem phase_is_held : forall (times : list Z) (adc f : Z) (s : State),
  target_frequency adc = Some f ->
  0 < f <= LONG_MAX ->
  forallb
    (fun t =>
       ulong_sub t (lastToggleMicros (pas s))
       <? (if outputHigh (pas s)
           then 1000000 / f * 25 / 100
           else 1000000 / f - 1000000 / f * 25 / 100))
    times = true ->
  exists s' : State,
    run (List.map (fun t => (t, adc)) times) s = Some s'
    /\ outputHigh (pas s') = outputHigh (pas s)
    /\ lastToggleMicros (pas s') = lastToggleMicros (pas s)
    /\ pin_writes PAS_PIN (out s') = pin_writes PAS_PIN (out s).
Proof.
  intros times adc f s Hf Hpos. revert s.
  induction times as [| t times IH]; intros s Hall.
  - exists s. repeat split.
  - cbn [forallb] in Hall. apply andb_prop in Hall.
    destruct Hall as [Ht Hrest]. apply Z.ltb_lt in Ht.
    destruct (loop_hold t adc f s Hf Hpos Ht) as [s1 [L1 [L2 [L3 L4]]]].
    cbn [List.map run]. rewrite L1.
    rewrite <- L2, <- L3 in Hrest.
    destruct (IH s1 Hrest) as [s' [R1 [R2 [R3 R4]]]].
    exists s'. split; [exact R1 |]. repeat split; congruence.
Qed.

Lemma phase_is_held_witness :
  let s := mkState (mkPAS true 100000 10000 30000 25) (mkBuzz false 0 400)
             900 0 [DigitalWrite PAS_PIN HIGH] in
  (target_frequency 900 = Some 25
   /\ 0 < 25 <= LONG_MAX
   /\ forallb
        (fun t =>
           ulong_sub t (lastToggleMicros (pas s))
           <? (if outputHigh (pas s)
               then 1000000 / 25 * 25 / 100
               else 1000000 / 25 - 1000000 / 25 * 25 / 100))
        [100100; 104000; 109999] = true)
  /\ exists s' : State,
       run (List.map (fun t => (t, 900)) [100100; 104000; 109999]) s = Some s'
       /\ outputHigh (pas s') = true
       /\ lastToggleMicros (pas s') = 100000
       /\ pin_writes PAS_PIN (out s') = [HIGH].
Proof.
  intros s.
  assert (H1 : target_frequency 900 = Some 25) by reflexivity.
  assert (H2 : 0 < 25 <= LONG_MAX) by (unfold LONG_MAX; lia).
  assert (H3 : forallb
                 (fun t =>
                    ulong_sub t (lastToggleMicros (pas s))
                    <? (if outputHigh (pas s)
                        then 1000000 / 25 * 25 / 100
                        else 1000000 / 25 - 1000000 / 25 * 25 / 100))
                 [100100; 104000; 109999] = true) by reflexivity.
  split; [repeat split; try assumption; apply H2 |].
  exact (phase_is_held [100100; 104000; 109999] 900 25 s H1 H2 H3).
Defined.
